(** * Emitter: a listener registry (observer pattern)

    A shallow embedding of [src/Emitter.js] and the properties of its
    specification.

    Conventions of the embedding.
    - A JavaScript string is the list of its UTF-16 code units.
    - The private field [#events], a plain object used as a dictionary from
      event names to arrays of [{isOnce, listener}] records, is a [gmap] from
      strings to lists holding its own properties, together with the
      properties every plain object inherits from [Object.prototype], which
      the [in] operator and a property read also find.
    - A function value is identified by its reference (a natural number);
      what it does when called is given by [behaviour]: what it writes to
      the fields of the record it is called on, which other methods of the
      emitter it calls before it returns, and how it ends.  Outside the
      embedding are a listener that calls [emit] itself, that stores in the
      [listener] field something that is not a function, or that keeps the
      record to write it later, and whatever runs while [emit] waits for the
      promises, which are all taken to settle.
    - The text of a [TypeError] raised by the language itself differs from
      one engine to the next; the embedding names the method that is
      missing.
    - Every method is a computation over the emitter that either completes
      normally or throws; what was written before a [throw] stays written.
      For the [async] method [emit], completing normally stands for the
      returned promise being fulfilled and throwing for its rejection. *)

From Stdlib Require Import ZArith.
From Stdlib Require Ascii.
From stdpp Require Import gmap list strings.

Open Scope Z_scope.

(** ** Strings *)

Abbreviation jsstring := (list N).

(** The code units of a literal whose characters are all below U+0100. *)
Fixpoint str (s : string) : jsstring :=
  match s with
  | EmptyString => []
  | String a s' => Ascii.N_of_ascii a :: str s'
  end.

(** ECMAScript [WhiteSpace] and [LineTerminator] code points, the ones
    [String.prototype.trim] strips. *)
Definition isWhiteSpace (c : N) : bool :=
  ((9 <=? c) && (c <=? 13) || (c =? 32) || (c =? 160) || (c =? 5760)
   || (8192 <=? c) && (c <=? 8202)
   || (c =? 8232) || (c =? 8233) || (c =? 8239) || (c =? 8287)
   || (c =? 12288) || (c =? 65279))%N.

Fixpoint trimStart (s : jsstring) : jsstring :=
  match s with
  | [] => []
  | c :: s' => if isWhiteSpace c then trimStart s' else s
  end.

Definition trimEnd (s : jsstring) : jsstring :=
  reverse (trimStart (reverse s)).

Definition trim (s : jsstring) : jsstring := trimEnd (trimStart s).

(** ** Values *)

Inductive number :=
| NaN
| Infinity
| NegInfinity
| Int (z : Z)
| Fractional.        (* a finite number that is not an integer *)

Inductive value :=
| VUndefined
| VNull
| VBoolean (b : bool)
| VNumber (n : number)
| VString (s : jsstring)
| VFunction (f : nat)
| VObject.           (* any other object, arrays included *)

(** A number where a value is expected, an integer where a number is. *)
Coercion Int : Z >-> number.
Coercion VNumber : number >-> value.

Inductive type_tag :=
| TUndefined | TObject | TBoolean | TNumber | TString | TFunction.

Definition typeof (v : value) : type_tag :=
  match v with
  | VUndefined => TUndefined
  | VNull => TObject
  | VBoolean _ => TBoolean
  | VNumber _ => TNumber
  | VString _ => TString
  | VFunction _ => TFunction
  | VObject => TObject
  end.

Global Instance type_tag_eq_dec : EqDecision type_tag.
Proof. solve_decision. Defined.

Global Instance number_eq_dec : EqDecision number.
Proof. solve_decision. Defined.

Global Instance value_eq_dec : EqDecision value.
Proof. solve_decision. Defined.

(** ** The emitter *)

(** One element of an event's array: [{ isOnce, listener }]. *)
Record event := Event { isOnce : bool; listener : nat }.

Global Instance event_eq_dec : EqDecision event.
Proof. solve_decision. Defined.

(** What [#maxListeners] holds once the setter has accepted a number: an
    integer or [Infinity]. *)
Inductive capacity :=
| Finite (z : Z)
| Unbounded.

Global Instance capacity_eq_dec : EqDecision capacity.
Proof. solve_decision. Defined.

(** The two private fields.  [maxListeners_] is [None] (undefined) only
    inside the constructor, before the setter has run. *)
Record Emitter := {
  events_ : gmap (list N) (list event);
  maxListeners_ : option capacity
}.

Inductive exn :=
| TypeError (msg : string)
| Error (msg : string)
| Uncaught (reason : value).    (* whatever a listener threw *)

Inductive completion (A : Type) :=
| Normal (a : A)
| Throw (e : exn).
Arguments Normal {A} & a.
Arguments Throw {A} e.

(** What a call of a listener does: it returns (a plain value or a promise
    that is later fulfilled), it returns a promise that is later rejected, or
    it throws before returning. *)
Inductive invocation :=
| Fulfils
| Rejects (reason : value)
| Throws (reason : value).

(** The emitter together with the record of the listener calls made so far,
    oldest first: which function was called, with which arguments. *)
Record World := {
  this : Emitter;
  calls : list (nat * list value)
}.

Definition M (A : Type) : Type := World → completion A * World.

Global Instance M_ret : MRet M := λ A a w, (Normal a, w).

Global Instance M_bind : MBind M := λ A B f m w,
  match m w with
  | (Normal a, w') => f a w'
  | (Throw e, w') => (Throw e, w')
  end.

Definition throw {A} (e : exn) : M A := λ w, (Throw e, w).

Definition getEvents : M (gmap (list N) (list event)) :=
  λ w, (Normal (events_ (this w)), w).

(** The world in which [#events] holds [evs] and nothing else differs. *)
Definition withEvents (evs : gmap (list N) (list event)) (w : World) : World :=
  {| this := {| events_ := evs; maxListeners_ := maxListeners_ (this w) |};
     calls := calls w |}.

Definition setEvents (evs : gmap (list N) (list event)) : M unit :=
  λ w, (Normal tt, withEvents evs w).

Definition getMax : M (option capacity) :=
  λ w, (Normal (maxListeners_ (this w)), w).

(** The world in which [#maxListeners] holds [c] and nothing else differs. *)
Definition withMax (c : capacity) (w : World) : World :=
  {| this := {| events_ := events_ (this w); maxListeners_ := Some c |};
     calls := calls w |}.

Definition setMax (c : capacity) : M unit :=
  λ w, (Normal tt, withMax c w).

Definition logCall (f : nat) (args : list value) : M unit :=
  λ w, (Normal tt, {| this := this w; calls := calls w ++ [(f, args)] |}).

(** ** Properties inherited from [Object.prototype] *)

(** What a plain object inherits under a name: a function, of which the
    methods read the [length], or, under [__proto__], the prototype
    object. *)
Inductive inheritedValue :=
| InheritedFunction (arity : Z)
| InheritedObject.

(** The properties of [Object.prototype] (ECMAScript, Annex B included),
    with the [length] of each function. *)
Definition objectPrototype : list (string * inheritedValue) :=
  [("constructor", InheritedFunction 1);
   ("__defineGetter__", InheritedFunction 2);
   ("__defineSetter__", InheritedFunction 2);
   ("hasOwnProperty", InheritedFunction 1);
   ("__lookupGetter__", InheritedFunction 1);
   ("__lookupSetter__", InheritedFunction 1);
   ("isPrototypeOf", InheritedFunction 1);
   ("propertyIsEnumerable", InheritedFunction 1);
   ("toString", InheritedFunction 0);
   ("valueOf", InheritedFunction 0);
   ("__proto__", InheritedObject);
   ("toLocaleString", InheritedFunction 0)].

Fixpoint assoc (name : jsstring) (table : list (string * inheritedValue))
    : option inheritedValue :=
  match table with
  | [] => None
  | (k, v) :: rest => if bool_decide (str k = name) then Some v else assoc name rest
  end.

Definition inherited (name : jsstring) : option inheritedValue :=
  assoc name objectPrototype.

(** What [this.#events[eventName]] reads: an array the emitter stored, a
    value inherited from the prototype, or undefined. *)
Inductive property :=
| Own (arr : list event)
| Inherited (v : inheritedValue)
| Missing.

Definition getProperty (evs : gmap (list N) (list event)) (eventName : jsstring)
    : property :=
  match evs !! eventName with
  | Some arr => Own arr
  | None =>
      match inherited eventName with
      | Some v => Inherited v
      | None => Missing
      end
  end.

(** [eventName in this.#events]. *)
Definition hasProperty (evs : gmap (list N) (list event)) (eventName : jsstring)
    : bool :=
  match getProperty evs eventName with
  | Missing => false
  | _ => true
  end.

Definition notAFunction (method : string) : exn :=
  TypeError (method +:+ " is not a function").

Definition ofUndefined : exn :=
  TypeError "Cannot read properties of undefined".

(** [this.#events[eventName].method], read in order to call it: the array
    when the property is one; an inherited value has no such method and
    undefined has no property, and the call throws. *)
Definition getArray (eventName : jsstring) (method : string) : M (list event) :=
  evs ← getEvents;
  match getProperty evs eventName with
  | Own arr => mret arr
  | Inherited _ => throw (notAFunction method)
  | Missing => throw ofUndefined
  end.

(** [this.#events[eventName].length]; [None] is undefined. *)
Definition getLength (eventName : jsstring) : M (option Z) :=
  evs ← getEvents;
  match getProperty evs eventName with
  | Own arr => mret (Some (Z.of_nat (length arr)))
  | Inherited (InheritedFunction arity) => mret (Some arity)
  | Inherited InheritedObject => mret None
  | Missing => throw ofUndefined
  end.

(** Writing the array stored under a key back after it was changed in place. *)
Definition setArray (eventName : jsstring) (arr : list event) : M unit :=
  evs ← getEvents; setEvents (<[eventName := arr]> evs).

(** [typeof eventName !== 'string' || !eventName.trim()] followed by the
    [throw]; hands back the string as it was passed. *)
Definition checkEventName (eventName : value) : M jsstring :=
  match eventName with
  | VString s =>
      if bool_decide (trim s = []) then throw (TypeError "Invalid eventName")
      else mret s
  | _ => throw (TypeError "Invalid eventName")
  end.

(** [typeof listener !== 'function'] followed by the [throw]. *)
Definition checkListener (listener : value) : M nat :=
  match listener with
  | VFunction f => mret f
  | _ => throw (TypeError "Invalid listener")
  end.

(** [n > max] for what [#maxListeners] holds; a comparison with undefined
    is false. *)
Definition exceeds (n : Z) (max : option capacity) : bool :=
  match max with
  | Some (Finite z) => z <? n
  | Some Unbounded => false
  | None => false
  end.

(** [length + 1 > max] for a [length] that may be undefined, in which case
    the sum is not a number and the comparison is false. *)
Definition oneMoreExceeds (len : option Z) (max : option capacity) : bool :=
  match len with
  | Some n => exceeds (n + 1) max
  | None => false
  end.

(** [array.splice(start, 1)], for its effect on the array. *)
Definition splice1 {A} (start : Z) (l : list A) : list A :=
  let len := Z.of_nat (length l) in
  let from := if start <? 0 then Z.max (len + start) 0 else Z.min start len in
  delete (Z.to_nat from) l.

(** [array.findIndex(pred)]: the first index at which [pred] holds, or -1. *)
Fixpoint findIndex {A} (pred : A → bool) (l : list A) : Z :=
  match l with
  | [] => -1
  | x :: l' =>
      if pred x then 0
      else let i := findIndex pred l' in if i <? 0 then -1 else i + 1
  end.

(** [Object.keys(this.#events)]: the own keys, in the order of the map,
    which is not the order of insertion; nothing below depends on the
    order. *)
Definition objectKeys (evs : gmap (list N) (list event)) : list jsstring :=
  (map_to_list evs).*1.

(** [Number.isInteger(v)]. *)
Definition isInteger (v : value) : bool :=
  match v with
  | VNumber (Int _) => true
  | _ => false
  end.

(** The arrow function [event => event.listener === listener]. *)
Definition sameListener (f : nat) (event : event) : bool :=
  bool_decide (listener event = f).

(** ** Private methods *)

(** [#removeEventListener (eventName, index)]. *)
Definition removeEventListener (eventName : jsstring) (index : Z) : M unit :=
  arr ← getArray eventName "splice";
  setArray eventName (splice1 index arr);;
  len ← getLength eventName;
  if bool_decide (len = Some 0) then
    evs ← getEvents; setEvents (delete eventName evs)
  else mret tt.

(** [#addEventListener (eventName, listener, { isPrepend, isOnce })].  The
    method returns [this]; the embedding returns nothing. *)
Definition addEventListener (eventName listener : value)
    (isPrepend isOnce : bool) : M unit :=
  eventName ← checkEventName eventName;
  listener ← checkListener listener;
  let eventName := trim eventName in
  evs ← getEvents;
  (if hasProperty evs eventName then mret tt
   else setArray eventName []);;
  len ← getLength eventName;
  max ← getMax;
  if oneMoreExceeds len max then
    throw (Error "Memory leak detected")
  else if isPrepend then
    arr ← getArray eventName "unshift";
    setArray eventName (Event isOnce listener :: arr)
  else
    arr ← getArray eventName "push";
    setArray eventName (arr ++ [Event isOnce listener]).

(** ** Public methods *)

(** [new Emitter(maxListeners)] starts from this state and runs the setter. *)
Definition blank : World :=
  {| this := {| events_ := ∅; maxListeners_ := None |}; calls := [] |}.

(** [get eventNames]. *)
Definition eventNames : M (list jsstring) :=
  evs ← getEvents; mret (objectKeys evs).

(** [get maxListeners]. *)
Definition get_maxListeners : M (option capacity) := getMax.

(** [set maxListeners (maxListeners = 10)].  The test [maxListeners < 0] is
    reached only with an integer or [Infinity]; [maxListeners < length] in
    the scan of the events is [length > maxListeners]. *)
Definition set_maxListeners (maxListeners : value) : M unit :=
  let maxListeners :=
    match maxListeners with
    | VUndefined => VNumber (Int 10)
    | v => v
    end in
  max ←
    (if negb (isInteger maxListeners)
        && bool_decide (maxListeners ≠ VNumber Infinity)
     then throw (TypeError "Invalid maxListeners")
     else
       match maxListeners with
       | VNumber (Int z) =>
           if z <? 0 then throw (TypeError "Invalid maxListeners")
           else mret (Finite z)
       | _ => mret Unbounded
       end);
  evs ← getEvents;
  if existsb
       (λ eventName,
          match evs !! eventName with
          | Some arr => exceeds (Z.of_nat (length arr)) (Some max)
          | None => false
          end)
       (objectKeys evs)
  then throw (Error "Memory leak detected")
  else setMax max.

(** [constructor (maxListeners)]. *)
Definition new (maxListeners : value) : completion unit * World :=
  set_maxListeners maxListeners blank.

Definition addListener (eventName listener : value) : M unit :=
  addEventListener eventName listener false false.

Definition on (eventName listener : value) : M unit :=
  addListener eventName listener.

Definition once (eventName listener : value) : M unit :=
  addEventListener eventName listener false true.

Definition prependListener (eventName listener : value) : M unit :=
  addEventListener eventName listener true false.

Definition prependOnceListener (eventName listener : value) : M unit :=
  addEventListener eventName listener true true.

(** [listenerCount (eventName, listener)]; an absent second argument is
    [VUndefined].  On a name the object only inherits, the count is the
    [length] of what is inherited. *)
Definition listenerCount (eventName listener : value) : M value :=
  eventName ← checkEventName eventName;
  (if bool_decide (typeof listener ≠ TUndefined)
      && bool_decide (typeof listener ≠ TFunction)
   then throw (TypeError "Invalid listener") else mret tt);;
  evs ← getEvents;
  if negb (hasProperty evs eventName) then mret (VNumber (Int 0))
  else
    match listener with
    | VFunction f =>
        arr ← getArray eventName "filter";
        mret (VNumber (Int (Z.of_nat (length (List.filter (sameListener f) arr)))))
    | _ =>
        len ← getLength eventName;
        mret (match len with
              | Some n => VNumber (Int n)
              | None => VUndefined
              end)
    end.

(** [listeners (eventName)]. *)
Definition listeners (eventName : value) : M (list nat) :=
  eventName ← checkEventName eventName;
  evs ← getEvents;
  if negb (hasProperty evs eventName) then mret []
  else
    arr ← getArray eventName "filter";
    mret (map listener (List.filter (λ event, negb (isOnce event)) arr)).

(** [rawListeners (eventName)]. *)
Definition rawListeners (eventName : value) : M (list nat) :=
  eventName ← checkEventName eventName;
  evs ← getEvents;
  if negb (hasProperty evs eventName) then mret []
  else
    arr ← getArray eventName "map";
    mret (map listener arr).

(** [removeListener (eventName, listener)]. *)
Definition removeListener (eventName listener : value) : M unit :=
  eventName ← checkEventName eventName;
  listener ← checkListener listener;
  evs ← getEvents;
  if hasProperty evs eventName then
    arr ← getArray eventName "findIndex";
    let index := findIndex (sameListener listener) arr in
    if -1 <? index then removeEventListener eventName index else mret tt
  else mret tt.

Definition off (eventName listener : value) : M unit :=
  removeListener eventName listener.

(** [removeAllListeners (eventName)]; an absent argument is [VUndefined].
    [delete] removes an own property and does nothing to an inherited
    one. *)
Definition removeAllListeners (eventName : value) : M unit :=
  match eventName with
  | VUndefined => setEvents ∅
  | _ =>
      eventName ← checkEventName eventName;
      evs ← getEvents;
      if hasProperty evs eventName then setEvents (delete eventName evs)
      else mret tt
  end.

(** ** Calls of the synchronous methods *)

(** A call of a public method other than [emit], as a listener may make it
    while it runs. *)
Module Sync.

Inductive t :=
| SetMaxListeners (maxListeners : value)
| GetMaxListeners
| EventNames
| AddListener (eventName listener : value)
| On (eventName listener : value)
| Once (eventName listener : value)
| PrependListener (eventName listener : value)
| PrependOnceListener (eventName listener : value)
| ListenerCount (eventName listener : value)
| Listeners (eventName : value)
| RawListeners (eventName : value)
| Off (eventName listener : value)
| RemoveListener (eventName listener : value)
| RemoveAllListeners (eventName : value).

End Sync.

(** The state such a call leaves behind, whether it returned or threw. *)
Definition afterSync (c : Sync.t) (w : World) : World :=
  match c with
  | Sync.SetMaxListeners v => (set_maxListeners v w).2
  | Sync.GetMaxListeners => (get_maxListeners w).2
  | Sync.EventNames => (eventNames w).2
  | Sync.AddListener e l => (addListener e l w).2
  | Sync.On e l => (on e l w).2
  | Sync.Once e l => (once e l w).2
  | Sync.PrependListener e l => (prependListener e l w).2
  | Sync.PrependOnceListener e l => (prependOnceListener e l w).2
  | Sync.ListenerCount e l => (listenerCount e l w).2
  | Sync.Listeners e => (listeners e w).2
  | Sync.RawListeners e => (rawListeners e w).2
  | Sync.Off e l => (off e l w).2
  | Sync.RemoveListener e l => (removeListener e l w).2
  | Sync.RemoveAllListeners e => (removeAllListeners e w).2
  end.

(** ** Listeners *)

(** What a call of a listener does to the emitter before it returns, and
    how it ends.  The listener is called as a method of its record, so it
    can write the fields of that record: [this.isOnce = ...], of which only
    whether the value is truthy matters, and [this.listener = g] for a
    function [g]; and it can call the synchronous methods of the emitter.
    The writes are put first.  No synchronous method reads [isOnce] to
    decide what it changes, so where that write stands among the calls makes
    no difference to the emitter; for [listener], which [removeListener]
    reads, a write that follows a call is outside the embedding. *)
Record script := Script {
  writesOnce : option bool;
  writesListener : option nat;
  nested : list Sync.t;
  outcome : invocation
}.

(** A listener that leaves the emitter alone. *)
Definition quietly (o : invocation) : script :=
  {| writesOnce := None; writesListener := None; nested := [];
     outcome := o |}.

(** [this.isOnce = b] on a record. *)
Definition setOnce (b : bool) (e : event) : event :=
  {| isOnce := b; listener := listener e |}.

(** [this.listener = g] on a record. *)
Definition setListener (g : nat) (e : event) : event :=
  {| isOnce := isOnce e; listener := g |}.

(** The record after the writes of a script. *)
Definition rewritten (s : script) (e : event) : event :=
  let e := match writesOnce s with Some b => setOnce b e | None => e end in
  match writesListener s with Some g => setListener g e | None => e end.

(** ** Emission *)

Section Emit.

(** What calling function [f] with arguments [args] does. *)
Variable behaviour : nat → list value → script.

(** The array object that [map] and [forEach] walk in [emit].  As long as
    it is the one stored under the key, its contents are those found under
    the key. *)
Definition walked (eventName : jsstring) : M (list event) :=
  evs ← getEvents; mret (default [] (evs !! eventName)).

(** While [map] walks the array, a listener may take the array out of the
    emitter; [map] goes on walking the same object.  [None]: the array
    walked is still the one stored under the key.  [Some arr]: it is no
    longer stored, and holds [arr]. *)
Definition walk : Type := option (list event).

(** The writes to [this] of the listener called on the record at [index]
    of the array walked. *)
Definition writeRecord (eventName : jsstring) (index : nat)
    (update : event → event) (detached : walk) : M walk :=
  match detached with
  | Some arr => mret (Some (alter update index arr))
  | None =>
      evs ← getEvents;
      match evs !! eventName with
      | Some arr => setEvents (<[eventName := alter update index arr]> evs)
      | None => mret tt
      end;;
      mret None
  end.

(** The calls a listener makes, one after the other.  The array walked
    leaves the emitter when its key goes: emptied by [removeListener], which
    then deletes the key, or dropped as it is by [removeAllListeners].  A
    registration under the key afterwards makes a new array. *)
Fixpoint runNested (eventName : jsstring) (cs : list Sync.t)
    (detached : walk) : M walk :=
  match cs with
  | [] => mret detached
  | c :: cs' =>
      before ← walked eventName;
      (λ w, (Normal tt, afterSync c w));;
      evs ← getEvents;
      runNested eventName cs'
        (match detached, evs !! eventName with
         | None, None =>
             Some (match c with
                   | Sync.RemoveAllListeners _ => before
                   | _ => []
                   end)
         | _, _ => detached
         end)
  end.

(** The callback of [map], [event => event.listener(...args)], on the
    record at [index]: the listener runs, and what it returns is the
    promise. *)
Definition invoke (eventName : jsstring) (index : nat)
    (detached : walk) (args : list value) (event : event)
    : M (invocation * walk) :=
  logCall (listener event) args;;
  detached ← writeRecord eventName index
                (rewritten (behaviour (listener event) args)) detached;
  detached ← runNested eventName (nested (behaviour (listener event) args))
                detached;
  mret (outcome (behaviour (listener event) args), detached).

(** [arr.map(event => event.listener(...args))] from index [index] on, with
    [remaining] indices left of the length the array had when [map] began.
    Each index is looked up in the array as it is at that moment, and an
    index no longer in the array is passed over.  The results are the
    promises handed to [Promise.allSettled].  A listener that throws ends
    the [map]. *)
Fixpoint mapFrom (eventName : jsstring) (args : list value)
    (index remaining : nat) (detached : walk) : M (list invocation) :=
  match remaining with
  | O => mret []
  | S remaining' =>
      arr ← match detached with
            | Some arr => mret arr
            | None => walked eventName
            end;
      match arr !! index with
      | Some event =>
          '(promise, detached) ← invoke eventName index detached args event;
          match promise with
          | Throws reason => throw (Uncaught reason)
          | _ =>
              promises ← mapFrom eventName args (S index) remaining' detached;
              mret (promise :: promises)
          end
      | None => mapFrom eventName args (S index) remaining' detached
      end
  end.

(** [await Promise.allSettled(promises)]: waits until each promise is
    fulfilled or rejected and never rejects itself. *)
Definition allSettled (promises : list invocation) : M unit := mret tt.

(** One step of [arr.forEach((event, index) => { if (event.isOnce) {
    this.#removeEventListener(eventName, index) } })]: the index is looked up
    in the array as it is at that moment; if it is there, the callback runs
    on the element found; an index no longer in the array is passed over.
    No listener runs during [forEach], and [#removeEventListener] deletes
    the key only once the array is empty, so the contents of the array
    walked are those found under the key, or none when the key is gone. *)
Definition visit (eventName : jsstring) (index : nat) : M unit :=
  arr ← walked eventName;
  match arr !! index with
  | Some event =>
      if isOnce event then removeEventListener eventName (Z.of_nat index)
      else mret tt
  | None => mret tt
  end.

(** The [forEach] of [emit] from index [index] on, with [remaining] indices
    left of the length the array had when [forEach] began. *)
Fixpoint forEachFrom (eventName : jsstring) (index remaining : nat) : M unit :=
  match remaining with
  | O => mret tt
  | S remaining' =>
      visit eventName index;;
      forEachFrom eventName (S index) remaining'
  end.

(** [async emit (eventName, ...args)]. *)
Definition emit (eventName : value) (args : list value) : M bool :=
  eventName ← checkEventName eventName;
  evs ← getEvents;
  if hasProperty evs eventName then
    arr ← getArray eventName "map";
    promises ← mapFrom eventName args 0 (length arr) None;
    allSettled promises;;
    arr ← getArray eventName "forEach";
    forEachFrom eventName 0 (length arr);;
    mret true
  else mret false.

(** ** Sequences of calls *)

Inductive call :=
| SetMaxListeners (maxListeners : value)
| GetMaxListeners
| EventNames
| Emit (eventName : value) (args : list value)
| AddListener (eventName listener : value)
| On (eventName listener : value)
| Once (eventName listener : value)
| PrependListener (eventName listener : value)
| PrependOnceListener (eventName listener : value)
| ListenerCount (eventName listener : value)
| Listeners (eventName : value)
| RawListeners (eventName : value)
| Off (eventName listener : value)
| RemoveListener (eventName listener : value)
| RemoveAllListeners (eventName : value).

(** The state a call leaves behind, whether it returned or threw. *)
Definition after (c : call) (w : World) : World :=
  match c with
  | SetMaxListeners v => (set_maxListeners v w).2
  | GetMaxListeners => (get_maxListeners w).2
  | EventNames => (eventNames w).2
  | Emit e args => (emit e args w).2
  | AddListener e l => (addListener e l w).2
  | On e l => (on e l w).2
  | Once e l => (once e l w).2
  | PrependListener e l => (prependListener e l w).2
  | PrependOnceListener e l => (prependOnceListener e l w).2
  | ListenerCount e l => (listenerCount e l w).2
  | Listeners e => (listeners e w).2
  | RawListeners e => (rawListeners e w).2
  | Off e l => (off e l w).2
  | RemoveListener e l => (removeListener e l w).2
  | RemoveAllListeners e => (removeAllListeners e w).2
  end.

(** The states of an emitter that was constructed and then used through its
    public methods. *)
Inductive reachable : World → Prop :=
| reachable_new v w : new v = (Normal tt, w) → reachable w
| reachable_call c w : reachable w → reachable (after c w).

End Emit.

(** The invariant of the data model: no key with an empty array. *)
Definition nonEmptyKeys (w : World) : Prop :=
  ∀ eventName arr, events_ (this w) !! eventName = Some arr → arr ≠ [].

(** A listener behaviour for examples: function 13 throws, function 7
    returns a promise that is rejected, every other function returns. *)
Definition sample (f : nat) (args : list value) : script :=
  if (f =? 13)%nat then quietly (Throws (VString (str "boom")))
  else if (f =? 7)%nat then quietly (Rejects (VString (str "late")))
  else quietly Fulfils.

(** A listener behaviour for examples in which listeners act on the
    emitter: function 21 marks its record one-shot ([this.isOnce = true]),
    function 22 removes itself from 'x' ([emitter.off('x', f22)]), function
    23 registers function 1 for 'y', function 24 sets the capacity to 5,
    function 25 puts function 1 in its own place ([this.listener = f1]);
    every other function is as in [sample]. *)
Definition meddling (f : nat) (args : list value) : script :=
  if (f =? 21)%nat then
    {| writesOnce := Some true; writesListener := None; nested := [];
       outcome := Fulfils |}
  else if (f =? 22)%nat then
    {| writesOnce := None; writesListener := None;
       nested := [Sync.Off (VString (str "x")) (VFunction 22)];
       outcome := Fulfils |}
  else if (f =? 23)%nat then
    {| writesOnce := None; writesListener := None;
       nested := [Sync.On (VString (str "y")) (VFunction 1)];
       outcome := Fulfils |}
  else if (f =? 24)%nat then
    {| writesOnce := None; writesListener := None;
       nested := [Sync.SetMaxListeners (VNumber (Int 5))];
       outcome := Fulfils |}
  else if (f =? 25)%nat then
    {| writesOnce := None; writesListener := Some 1%nat; nested := [];
       outcome := Fulfils |}
  else sample f args.

Definition runAll (cs : list call) (w : World) : World :=
  foldl (λ w c, after sample c w) w cs.

(** ** Specification-side vocabulary *)

(** [n <= m] for a capacity [m], where [Unbounded] is above every number. *)
Definition fits (n : Z) (m : capacity) : Prop :=
  match m with
  | Finite z => n <= z
  | Unbounded => True
  end.

(** A string the methods accept as an event name. *)
Definition validName (s : jsstring) : Prop := trim s ≠ [].

(** The records held for a key, none when the key is absent. *)
Definition held (w : World) (eventName : jsstring) : list event :=
  default [] (events_ (this w) !! eventName).

(** The numbers a capacity may be set to: a non-negative integer, or
    [Infinity] for no bound. *)
Inductive acceptable : value → capacity → Prop :=
| acceptable_integer z : 0 <= z → acceptable (VNumber (Int z)) (Finite z)
| acceptable_infinity : acceptable (VNumber Infinity) Unbounded.

(** The value the setter works with: an absent one (undefined) stands for
    the default, 10. *)
Definition proposed (v : value) : value :=
  match v with
  | VUndefined => VNumber (Int 10)
  | _ => v
  end.

(** Some event holds more records than [c] allows. *)
Definition overfull (c : capacity) (w : World) : Prop :=
  ∃ eventName arr,
    events_ (this w) !! eventName = Some arr
    ∧ ¬ fits (Z.of_nat (length arr)) c.

(** The event map in which [eventName] holds [arr], an array left without
    records taking its key with it. *)
Definition stored (eventName : jsstring) (arr : list event)
    (evs : gmap (list N) (list event)) : gmap (list N) (list event) :=
  match arr with
  | [] => delete eventName evs
  | _ => <[eventName := arr]> evs
  end.

(** What the [forEach] of [emit] makes of an array: a one-shot record is
    taken out, and the record that slides into its place is then passed over
    and stays, whatever its flag. *)
Fixpoint sweep (arr : list event) : list event :=
  match arr with
  | [] => []
  | event :: rest =>
      if isOnce event then
        match rest with
        | [] => []
        | next :: rest' => next :: sweep rest'
        end
      else event :: sweep rest
  end.

(** The world in which the calls [cs] were made after those already on
    record and nothing else differs. *)
Definition withCalls (cs : list (nat * list value)) (w : World) : World :=
  {| this := this w; calls := calls w ++ cs |}.

(** No listener of [arr] throws when called with [args]. *)
Definition noneThrows (behaviour : nat → list value → script)
    (arr : list event) (args : list value) : Prop :=
  ∀ event reason,
    event ∈ arr → outcome (behaviour (listener event) args) ≠ Throws reason.

(** No listener of [arr], called with [args], calls a method of the
    emitter. *)
Definition noneCalls (behaviour : nat → list value → script)
    (arr : list event) (args : list value) : Prop :=
  ∀ event, event ∈ arr → nested (behaviour (listener event) args) = [].

(** No listener of [arr], called with [args], writes a field of its
    record. *)
Definition noneWrites (behaviour : nat → list value → script)
    (arr : list event) (args : list value) : Prop :=
  ∀ event, event ∈ arr →
    writesOnce (behaviour (listener event) args) = None
    ∧ writesListener (behaviour (listener event) args) = None.

(** The record as the listener called on it with [args] leaves it. *)
Definition written (behaviour : nat → list value → script)
    (args : list value) (e : event) : event :=
  rewritten (behaviour (listener e) args) e.

(** Every call that some listener makes satisfies [Q]. *)
Definition nestedAll (behaviour : nat → list value → script)
    (Q : Sync.t → Prop) : Prop :=
  ∀ f args c, c ∈ nested (behaviour f args) → Q c.

(** The name is not one that a plain object inherits. *)
Definition plainName (s : jsstring) : Prop := inherited s = None.

(** Under the key the emitter finds an array of its own or nothing, not a
    value of the prototype. *)
Definition notInherited (w : World) (key : jsstring) : Prop :=
  is_Some (events_ (this w) !! key) ∨ plainName key.

(** What is read as the [length] of an inherited value. *)
Definition inheritedLength (v : inheritedValue) : option Z :=
  match v with
  | InheritedFunction arity => Some arity
  | InheritedObject => None
  end.

(** The five registration methods. *)
Definition registrations : list (value → value → M unit) :=
  [addListener; on; once; prependListener; prependOnceListener].

(** A value the methods accept as an event name. *)
Definition acceptedName (v : value) : Prop :=
  ∃ s, v = VString s ∧ validName s.

(** The computation [m] never changes what [f] reads off the world. *)
Definition keeps {B A} (f : World → B) (m : M A) : Prop :=
  ∀ w, f (m w).2 = f w.

(** The computation [m] takes a world in which [P] holds to one in which
    it holds, whether it returns or throws. *)
Definition preserves {A} (P : World → Prop) (m : M A) : Prop :=
  ∀ w, P w → P (m w).2.

(** Every key of the emitter is a name that a plain object does not
    inherit. *)
Definition plainKeys (w : World) : Prop :=
  ∀ key, is_Some (events_ (this w) !! key) → plainName key.

(** The capacity, when it is a number, is at least 1. *)
Definition roomForOne (w : World) : Prop :=
  ∀ z, maxListeners_ (this w) = Some (Finite z) → 1 <= z.

(** The listeners leave the emitter and their records alone. *)
Definition quiet (behaviour : nat → list value → script) : Prop :=
  ∀ f args, writesOnce (behaviour f args) = None
            ∧ writesListener (behaviour f args) = None
            ∧ nested (behaviour f args) = [].

(** Every event holds at most as many records as the capacity allows. *)
Definition withinCapacity (w : World) : Prop :=
  ∃ m, maxListeners_ (this w) = Some m
       ∧ ∀ eventName, fits (Z.of_nat (length (held w eventName))) m.


(** The records of an array that are not one-shot. *)
Definition permanent (arr : list event) : list event :=
  List.filter (λ event, negb (isOnce event)) arr.


(** ** Evaluating computations *)

Ltac unfold_M :=
  cbv [mbind M_bind mret M_ret throw getArray getLength setArray
       getEvents setEvents getMax setMax logCall] in *.

Ltac fields :=
  cbn [events_ maxListeners_ this calls withEvents withMax withCalls
       fst snd] in *.

Lemma bind_normal {A B} (m : M A) (k : A → M B) w a w' :
  m w = (Normal a, w') → (m ≫= k) w = k a w'.
Proof. intros H. unfold mbind, M_bind. by rewrite H. Qed.

Lemma bind_throw {A B} (m : M A) (k : A → M B) w e w' :
  m w = (Throw e, w') → (m ≫= k) w = (Throw e, w').
Proof. intros H. unfold mbind, M_bind. by rewrite H. Qed.

Lemma checkEventName_valid s w :
  validName s → checkEventName (VString s) w = (Normal s, w).
Proof.
  intros H. unfold checkEventName. rewrite bool_decide_eq_false_2; done.
Qed.

Lemma checkEventName_frame v w : (checkEventName v w).2 = w.
Proof.
  destruct v; try done. simpl. by case_bool_decide.
Qed.

Lemma checkEventName_inv v w s w' :
  checkEventName v w = (Normal s, w') → v = VString s ∧ validName s ∧ w' = w.
Proof.
  destruct v; try done. simpl. case_bool_decide; [done|].
  intros [= -> ->]. done.
Qed.

Lemma getProperty_own evs key arr :
  evs !! key = Some arr → getProperty evs key = Own arr.
Proof. unfold getProperty. by intros ->. Qed.

Lemma getProperty_insert evs key arr :
  getProperty (<[key := arr]> evs) key = Own arr.
Proof. apply getProperty_own, lookup_insert_eq. Qed.

Lemma getProperty_insert_ne evs key key' arr :
  key ≠ key' → getProperty (<[key := arr]> evs) key' = getProperty evs key'.
Proof. intros H. unfold getProperty. by rewrite lookup_insert_ne. Qed.

Lemma getProperty_missing evs key :
  evs !! key = None → plainName key → getProperty evs key = Missing.
Proof. unfold getProperty, plainName. by intros -> ->. Qed.

Lemma getProperty_inherited evs key v :
  evs !! key = None → inherited key = Some v →
  getProperty evs key = Inherited v.
Proof. unfold getProperty. by intros -> ->. Qed.

Lemma getProperty_notInherited w key :
  notInherited w key →
  getProperty (events_ (this w)) key
  = match events_ (this w) !! key with Some arr => Own arr | None => Missing end.
Proof.
  intros [[arr Hk]|Hp]; unfold getProperty.
  - by rewrite Hk.
  - destruct (events_ (this w) !! key); [done|]. by rewrite Hp.
Qed.

(** Reducing a computation in which the property read is known by [H]. *)
Ltac eval_property H :=
  repeat first [progress fields | progress cbn [negb] | rewrite H].

Lemma notInherited_absent w key :
  notInherited w key → events_ (this w) !! key = None → plainName key.
Proof. intros [[? Hsome]|] Hk; [congruence|done]. Qed.

Lemma withEvents_id w : withEvents (events_ (this w)) w = w.
Proof. by destruct w as [[??]?]. Qed.

Lemma withEvents_twice evs evs' w :
  withEvents evs (withEvents evs' w) = withEvents evs w.
Proof. done. Qed.

Lemma withCalls_nil w : withCalls [] w = w.
Proof. destruct w as [e cs]. unfold withCalls. simpl. by rewrite app_nil_r. Qed.

Lemma withCalls_app cs cs' w :
  withCalls cs' (withCalls cs w) = withCalls (cs ++ cs') w.
Proof. unfold withCalls. simpl. by rewrite app_assoc. Qed.

(** ** What a computation leaves alone *)

Lemma keeps_bind {A B C} (f : World → C) (m : M A) (k : A → M B) :
  keeps f m → (∀ a, keeps f (k a)) → keeps f (m ≫= k).
Proof.
  intros Hm Hk w. unfold mbind, M_bind. specialize (Hm w).
  destruct (m w) as [[a|e] w']; simpl in *; [|done]. by rewrite Hk.
Qed.

Lemma keeps_ret {A C} (f : World → C) (a : A) : keeps f (mret a).
Proof. done. Qed.

Lemma keeps_throw {A C} (f : World → C) e : keeps f (@throw A e).
Proof. done. Qed.

Lemma keeps_frame {A C} (f : World → C) (m : M A) :
  (∀ w, (m w).2 = w) → keeps f m.
Proof. intros H w. by rewrite H. Qed.

Ltac keeps_step :=
  first
    [ apply keeps_ret
    | apply keeps_throw
    | apply keeps_bind; [|intros ?]
    | match goal with
      | |- keeps _ (if ?b then _ else _) => destruct b
      | |- keeps _ (match ?x with _ => _ end) => destruct x
      end ].

Section Keeps.

Context {C : Type} (f : World → C).

Lemma keeps_getEvents : keeps f getEvents.
Proof. done. Qed.

Lemma keeps_getMax : keeps f getMax.
Proof. done. Qed.

Lemma keeps_checkEventName v : keeps f (checkEventName v).
Proof. apply keeps_frame, checkEventName_frame. Qed.

Lemma keeps_checkListener v : keeps f (checkListener v).
Proof. by destruct v. Qed.

Lemma keeps_getArray eventName method : keeps f (getArray eventName method).
Proof.
  unfold getArray. apply keeps_bind; [apply keeps_getEvents|].
  intros evs. by destruct (getProperty evs eventName).
Qed.

Lemma keeps_getLength eventName : keeps f (getLength eventName).
Proof.
  unfold getLength. apply keeps_bind; [apply keeps_getEvents|].
  intros evs. by destruct (getProperty evs eventName) as [|[|]|].
Qed.

Lemma keeps_listenerCount eventName listener :
  keeps f (listenerCount eventName listener).
Proof.
  unfold listenerCount.
  repeat first [ apply keeps_checkEventName | apply keeps_getArray
               | apply keeps_getLength | apply keeps_getEvents | keeps_step ].
Qed.

Lemma keeps_listeners eventName : keeps f (listeners eventName).
Proof.
  unfold listeners.
  repeat first [ apply keeps_checkEventName | apply keeps_getArray
               | apply keeps_getEvents | keeps_step ].
Qed.

Lemma keeps_rawListeners eventName : keeps f (rawListeners eventName).
Proof.
  unfold rawListeners.
  repeat first [ apply keeps_checkEventName | apply keeps_getArray
               | apply keeps_getEvents | keeps_step ].
Qed.

Hypothesis f_withEvents : ∀ evs w, f (withEvents evs w) = f w.

Lemma keeps_setEvents evs : keeps f (setEvents evs).
Proof. intros w. apply f_withEvents. Qed.

Lemma keeps_setArray eventName arr : keeps f (setArray eventName arr).
Proof.
  unfold setArray. apply keeps_bind; [apply keeps_getEvents|].
  intros evs. apply keeps_setEvents.
Qed.

Lemma keeps_removeEventListener eventName index :
  keeps f (removeEventListener eventName index).
Proof.
  unfold removeEventListener.
  repeat first [ apply keeps_getArray | apply keeps_getLength
               | apply keeps_setArray
               | apply keeps_getEvents | apply keeps_setEvents | keeps_step ].
Qed.

Lemma keeps_addEventListener eventName listener isPrepend isOnce :
  keeps f (addEventListener eventName listener isPrepend isOnce).
Proof.
  unfold addEventListener.
  repeat first [ apply keeps_checkEventName | apply keeps_checkListener
               | apply keeps_getArray | apply keeps_getLength
               | apply keeps_setArray
               | apply keeps_getEvents | apply keeps_getMax | keeps_step ].
Qed.

Lemma keeps_removeListener eventName listener :
  keeps f (removeListener eventName listener).
Proof.
  unfold removeListener.
  repeat first [ apply keeps_checkEventName | apply keeps_checkListener
               | apply keeps_removeEventListener | apply keeps_getArray
               | apply keeps_getEvents | keeps_step ].
Qed.

Lemma keeps_removeAllListeners eventName :
  keeps f (removeAllListeners eventName).
Proof.
  unfold removeAllListeners.
  destruct eventName;
    repeat first [ apply keeps_checkEventName | apply keeps_setEvents
                 | apply keeps_getEvents | keeps_step ].
Qed.

End Keeps.

(** ** The queries leave the emitter alone *)

Lemma eventNames_frame w : (eventNames w).2 = w.
Proof. done. Qed.

Lemma get_maxListeners_frame w : (get_maxListeners w).2 = w.
Proof. done. Qed.

Lemma listenerCount_frame eventName listener w :
  (listenerCount eventName listener w).2 = w.
Proof. apply (keeps_listenerCount (λ w, w)). Qed.

Lemma listeners_frame eventName w : (listeners eventName w).2 = w.
Proof. apply (keeps_listeners (λ w, w)). Qed.

Lemma rawListeners_frame eventName w : (rawListeners eventName w).2 = w.
Proof. apply (keeps_rawListeners (λ w, w)). Qed.

(** C10.  The queries [eventNames], the [maxListeners] getter,
    [listenerCount], [listeners] and [rawListeners] never change the
    emitter: whatever the arguments, and whether the query returns or
    throws, the event map (keys, order of the records, once-flags) and the
    stored capacity are afterwards exactly what they were before. *)
Theorem queries_do_not_mutate (w : World) (eventName listener : value) :
  this (eventNames w).2 = this w
  ∧ this (get_maxListeners w).2 = this w
  ∧ this (listenerCount eventName listener w).2 = this w
  ∧ this (listeners eventName w).2 = this w
  ∧ this (rawListeners eventName w).2 = this w.
Proof.
  rewrite eventNames_frame, get_maxListeners_frame, listenerCount_frame,
    listeners_frame, rawListeners_frame.
  done.
Qed.

(** ** Registration *)

Lemma exceeds_fits n m : exceeds n (Some m) = false ↔ fits n m.
Proof.
  destruct m as [z|]; simpl; [|done]. rewrite Z.ltb_ge. done.
Qed.

Lemma held_lookup w key arr :
  events_ (this w) !! key = Some arr → held w key = arr.
Proof. unfold held. by intros ->. Qed.

Lemma held_absent w key :
  events_ (this w) !! key = None → held w key = [].
Proof. unfold held. by intros ->. Qed.

(** What [#addEventListener] does once its two arguments are accepted, on
    a name that the object only inherits: no array is made, the [length]
    read is that of the inherited value, and adding to it throws. *)
Lemma addEventListener_inherited s f isPrepend isOnce w v :
  validName s →
  events_ (this w) !! trim s = None → inherited (trim s) = Some v →
  addEventListener (VString s) (VFunction f) isPrepend isOnce w =
    (Throw (if oneMoreExceeds (inheritedLength v) (maxListeners_ (this w))
            then Error "Memory leak detected"
            else notAFunction (if isPrepend then "unshift" else "push")),
     w).
Proof.
  intros Hs Hk Hv. unfold addEventListener.
  rewrite (bind_normal _ _ _ _ _ (checkEventName_valid s w Hs)).
  cbv [checkListener hasProperty]. unfold_M. fields.
  repeat (rewrite (getProperty_inherited _ _ v Hk Hv); cbn beta iota).
  destruct v as [arity|]; cbn [inheritedLength oneMoreExceeds].
  - destruct (exceeds (arity + 1) _); [done|].
    destruct isPrepend;
      by repeat (rewrite (getProperty_inherited _ _ _ Hk Hv); cbn beta iota).
  - destruct isPrepend;
      by repeat (rewrite (getProperty_inherited _ _ _ Hk Hv); cbn beta iota).
Qed.

(** What [#addEventListener] does once its two arguments are accepted, on
    any other name. *)
Lemma addEventListener_eval s f isPrepend isOnce w :
  validName s →
  notInherited w (trim s) →
  let key := trim s in
  let evs := events_ (this w) in
  let arr := held w key in
  addEventListener (VString s) (VFunction f) isPrepend isOnce w =
    if exceeds (Z.of_nat (length arr) + 1) (maxListeners_ (this w)) then
      (Throw (Error "Memory leak detected"),
       if bool_decide (key ∈ dom evs) then w else withEvents (<[key := []]> evs) w)
    else
      (Normal tt,
       withEvents
         (<[key := if isPrepend then Event isOnce f :: arr
                    else arr ++ [Event isOnce f]]> evs) w).
Proof.
  intros Hs Hni key evs arr. subst key evs arr. unfold addEventListener.
  rewrite (bind_normal _ _ _ _ _ (checkEventName_valid s w Hs)).
  cbv [checkListener hasProperty]. unfold_M. fields.
  destruct (events_ (this w) !! trim s) as [a|] eqn:Hk.
  - repeat (rewrite (getProperty_own _ _ a Hk); cbn beta iota).
    rewrite bool_decide_eq_true_2 by (apply elem_of_dom; by eexists).
    rewrite (held_lookup _ _ _ Hk). cbn [oneMoreExceeds].
    destruct (exceeds _ _); [done|].
    destruct isPrepend;
      by repeat (rewrite (getProperty_own _ _ a Hk); cbn beta iota).
  - assert (plainName (trim s)) as Hp.
    { destruct Hni as [[? Hsome]|]; [congruence|done]. }
    repeat (rewrite (getProperty_missing _ _ Hk Hp); cbn beta iota).
    rewrite bool_decide_eq_false_2 by by apply not_elem_of_dom.
    rewrite (held_absent _ _ Hk). fields.
    repeat first [progress fields | progress cbn beta iota
                 | rewrite getProperty_insert].
    cbn [oneMoreExceeds length]. destruct (exceeds _ _); [done|].
    destruct isPrepend;
      repeat first [progress fields | progress cbn beta iota
                   | rewrite getProperty_insert];
      unfold withEvents; simpl; by rewrite insert_insert_eq.
Qed.

(** A registration that succeeds was not on a name only inherited. *)
Lemma addEventListener_success s f isPrepend isOnce w :
  validName s →
  (addEventListener (VString s) (VFunction f) isPrepend isOnce w).1
  = Normal tt →
  notInherited w (trim s).
Proof.
  intros Hs Hr. unfold notInherited, plainName.
  destruct (events_ (this w) !! trim s) as [arr|] eqn:Hk; [left; by eexists|].
  destruct (inherited (trim s)) as [v|] eqn:Hv; [|by right].
  rewrite (addEventListener_inherited s f isPrepend isOnce w v) in Hr by done.
  done.
Qed.

Lemma registrations_inv register :
  register ∈ registrations →
  ∃ isPrepend isOnce,
    register = λ eventName listener,
      addEventListener eventName listener isPrepend isOnce.
Proof.
  unfold registrations. intros H.
  repeat (apply elem_of_cons in H as [-> | H]);
    [ by exists false, false | by exists false, false | by exists false, true
    | by exists true, false | by exists true, true | ].
  by apply elem_of_nil in H.
Qed.

(** What [listenerCount] returns for an accepted name that is not only
    inherited. *)
Lemma listenerCount_eval s w :
  validName s →
  notInherited w s →
  listenerCount (VString s) VUndefined w
    = (Normal (VNumber (Int (Z.of_nat (length (held w s))))), w)
  ∧ ∀ f, listenerCount (VString s) (VFunction f) w
         = (Normal
              (VNumber
                 (Int (Z.of_nat
                         (length (List.filter (sameListener f) (held w s)))))),
            w).
Proof.
  intros Hs Hni. unfold listenerCount, held.
  destruct (events_ (this w) !! s) as [arr|] eqn:Hk.
  - split; [|intros f];
      rewrite (bind_normal _ _ _ _ _ (checkEventName_valid s w Hs));
      cbv [hasProperty]; unfold_M; simpl;
      by eval_property (getProperty_own _ _ _ Hk).
  - pose proof (notInherited_absent _ _ Hni Hk) as Hp.
    split; [|intros f];
      rewrite (bind_normal _ _ _ _ _ (checkEventName_valid s w Hs));
      cbv [hasProperty]; unfold_M; simpl;
      by eval_property (getProperty_missing _ _ Hk Hp).
Qed.

(** A key that holds no record counts like an absent one. *)
Lemma listenerCount_empty_key key w eventName listener :
  events_ (this w) !! key = None → plainName key →
  (listenerCount eventName listener
     (withEvents (<[key := []]> (events_ (this w))) w)).1
  = (listenerCount eventName listener w).1.
Proof.
  intros Hk Hp. destruct eventName as [| | | |s| |]; try done.
  unfold listenerCount, checkEventName.
  destruct (bool_decide (trim s = [])); [by cbv [mbind M_bind throw]|].
  cbv [hasProperty]. unfold_M. fields.
  destruct (bool_decide _ && bool_decide _); [done|]. cbn beta iota.
  destruct (decide (key = s)) as [->|Hne].
  - eval_property (getProperty_insert (events_ (this w)) s []).
    eval_property (getProperty_missing _ _ Hk Hp).
    destruct listener; cbn beta iota;
      by eval_property (getProperty_insert (events_ (this w)) s []).
  - eval_property (getProperty_insert_ne (events_ (this w)) key s [] Hne).
    destruct (getProperty (events_ (this w)) s) as [arr|[arity|]|] eqn:E;
      cbn [negb]; [| | |done];
      destruct listener; cbn beta iota;
      eval_property (getProperty_insert_ne (events_ (this w)) key s [] Hne);
      by rewrite ?E.
Qed.

(** X22.  In an emitter of capacity [m], let the event named by [s] (after
    trimming), a name that is a key of the emitter or is not inherited from
    the prototype, hold [n] records.  Each of the five registration methods,
    given an accepted name and a function, succeeds exactly when
    [n + 1 <= m]; on success the event holds one record more (the same
    function may be registered again and counts again); otherwise the method
    throws [Error 'Memory leak detected'] and every listener count is what
    it was. *)
Theorem registration_capacity
    (register : value → value → M unit) (w : World) (m : capacity)
    (s : jsstring) (f : nat) :
  register ∈ registrations →
  maxListeners_ (this w) = Some m →
  validName s →
  notInherited w (trim s) →
  let n := Z.of_nat (length (held w (trim s))) in
  let r := register (VString s) (VFunction f) w in
  (r.1 = Normal tt ↔ fits (n + 1) m)
  ∧ (r.1 = Normal tt → Z.of_nat (length (held r.2 (trim s))) = n + 1)
  ∧ (r.1 ≠ Normal tt →
     r.1 = Throw (Error "Memory leak detected")
     ∧ ∀ eventName listener,
         (listenerCount eventName listener r.2).1
         = (listenerCount eventName listener w).1).
Proof.
  intros Hreg Hm Hs Hni n r.
  apply registrations_inv in Hreg as (isPrepend & isOnce & ->).
  subst r. simpl. rewrite addEventListener_eval by done.
  rewrite Hm. fold n.
  destruct (exceeds (n + 1) (Some m)) eqn:E.
  - assert (¬ fits (n + 1) m) as Hnot.
    { intros Hfit. apply exceeds_fits in Hfit. congruence. }
    simpl. split_and!; [split; [done | tauto] | done |].
    intros _. split; [done|]. intros eventName listener.
    case_bool_decide as Hin; [done|].
    apply not_elem_of_dom in Hin.
    apply listenerCount_empty_key; [done|]. by apply (notInherited_absent w).
  - apply exceeds_fits in E. simpl. split_and!; [done | | done].
    intros _. unfold held at 1. simpl. rewrite lookup_insert_eq. simpl.
    destruct isPrepend; simpl; [lia|]. rewrite length_app. simpl. lia.
Qed.

Lemma registration_capacity_witness :
  let w := (new (VNumber (Int 2))).2 in
  let r := once (VString (str " test ")) (VFunction 1) w in
  (r.1 = Normal tt ↔ fits (0 + 1) (Finite 2))
  ∧ (r.1 = Normal tt → Z.of_nat (length (held r.2 (str "test"))) = 0 + 1)
  ∧ (r.1 ≠ Normal tt →
     r.1 = Throw (Error "Memory leak detected")
     ∧ ∀ eventName listener,
         (listenerCount eventName listener r.2).1
         = (listenerCount eventName listener w).1).
Proof.
  apply (registration_capacity once (new (VNumber (Int 2))).2 (Finite 2)
           (str " test ") 1).
  - unfold registrations. repeat constructor.
  - reflexivity.
  - unfold validName. vm_compute. discriminate.
  - right. vm_compute. reflexivity.
Defined.

(** X24.  In an emitter whose capacity is 0, every call of a registration
    method ([addListener], [on], [prependListener], [once],
    [prependOnceListener]) with a function and an accepted name, one that is
    a key of the emitter or is not inherited from the prototype, throws
    [Error 'Memory leak detected']: no listener can be registered. *)
Theorem capacity_zero_rejects
    (register : value → value → M unit) (w : World) (s : jsstring) (f : nat) :
  register ∈ registrations →
  maxListeners_ (this w) = Some (Finite 0) →
  validName s →
  notInherited w (trim s) →
  (register (VString s) (VFunction f) w).1
  = Throw (Error "Memory leak detected").
Proof.
  intros Hreg Hm Hs Hni.
  apply registrations_inv in Hreg as (isPrepend & isOnce & ->).
  rewrite addEventListener_eval by done. rewrite Hm. simpl.
  destruct (0 <? Z.of_nat (length (held w (trim s))) + 1) eqn:E; [done|].
  apply Z.ltb_ge in E. lia.
Qed.

Lemma capacity_zero_rejects_witness :
  (prependListener (VString (str "x")) (VFunction 1)
     (new (VNumber (Int 0))).2).1
  = Throw (Error "Memory leak detected").
Proof.
  apply (capacity_zero_rejects prependListener (new (VNumber (Int 0))).2
           (str "x") 1).
  - unfold registrations. repeat constructor.
  - reflexivity.
  - unfold validName. vm_compute. discriminate.
  - right. vm_compute. reflexivity.
Defined.

(** ** The capacity *)

Lemma some_exceeds evs c :
  existsb
    (λ eventName,
       match evs !! eventName with
       | Some arr => exceeds (Z.of_nat (length arr)) (Some c)
       | None => false
       end)
    (objectKeys evs) = true
  ↔ ∃ eventName arr,
      evs !! eventName = Some arr ∧ ¬ fits (Z.of_nat (length arr)) c.
Proof.
  rewrite existsb_exists. split.
  - intros (k & _ & Hk). destruct (evs !! k) as [arr|] eqn:E; [|done].
    exists k, arr. split; [done|]. rewrite <- exceeds_fits. congruence.
  - intros (k & arr & Hk & Hfit). exists k. split.
    + apply list_elem_of_In. unfold objectKeys.
      apply list_elem_of_fmap. exists (k, arr). split; [done|].
      by apply elem_of_map_to_list.
    + rewrite Hk. destruct (exceeds _ _) eqn:E; [done|].
      by apply exceeds_fits in E.
Qed.

Lemma set_maxListeners_invalid v w :
  (∀ c, ¬ acceptable (proposed v) c) →
  set_maxListeners v w = (Throw (TypeError "Invalid maxListeners"), w).
Proof.
  intros Hno. unfold set_maxListeners. fold (proposed v).
  destruct (proposed v) as [| |b|[| | |z|]|s|f|]; try done.
  - exfalso. apply (Hno Unbounded). constructor.
  - unfold mbind, M_bind. simpl. destruct (z <? 0) eqn:E; [done|].
    apply Z.ltb_ge in E. exfalso. apply (Hno (Finite z)). by constructor.
Qed.

Lemma set_maxListeners_valid v c w :
  acceptable (proposed v) c →
  set_maxListeners v w =
    if existsb
         (λ eventName,
            match events_ (this w) !! eventName with
            | Some arr => exceeds (Z.of_nat (length arr)) (Some c)
            | None => false
            end)
         (objectKeys (events_ (this w)))
    then (Throw (Error "Memory leak detected"), w)
    else (Normal tt, withMax c w).
Proof.
  intros Hc. unfold set_maxListeners. fold (proposed v).
  inversion Hc as [z Hz Hv|Hv]; unfold mbind, M_bind; simpl.
  - rewrite (proj2 (Z.ltb_ge z 0)) by done. unfold_M.
    by destruct (existsb _ _).
  - unfold_M. by destruct (existsb _ _).
Qed.

(** C7.  Setting [maxListeners], where an absent value stands for the
    default 10: if the value is neither a non-negative integer nor
    [Infinity], the setter throws [TypeError 'Invalid maxListeners']; if it
    is one of these and some event already holds more records than it
    allows, the setter throws [Error 'Memory leak detected']; in both cases
    the stored capacity and the event map are what they were.  Otherwise the
    setter returns and the stored capacity is the new value, the event map
    being untouched. *)
Theorem set_maxListeners_spec (w : World) (v : value) :
  ((∀ c, ¬ acceptable (proposed v) c) →
   set_maxListeners v w = (Throw (TypeError "Invalid maxListeners"), w))
  ∧ (∀ c, acceptable (proposed v) c → overfull c w →
     set_maxListeners v w = (Throw (Error "Memory leak detected"), w))
  ∧ (∀ c, acceptable (proposed v) c → ¬ overfull c w →
     set_maxListeners v w = (Normal tt, withMax c w)
     ∧ maxListeners_ (this (set_maxListeners v w).2) = Some c
     ∧ events_ (this (set_maxListeners v w).2) = events_ (this w)).
Proof.
  split_and!.
  - apply set_maxListeners_invalid.
  - intros c Hc Hfull. rewrite (set_maxListeners_valid v c) by done.
    apply some_exceeds in Hfull. by rewrite Hfull.
  - intros c Hc Hfull. rewrite (set_maxListeners_valid v c) by done.
    destruct (existsb _ _) eqn:E; [|done].
    apply some_exceeds in E. done.
Qed.

(** ** Removal *)

Lemma splice1_index {A} (k : nat) (l : list A) :
  splice1 (Z.of_nat k) l = delete k l.
Proof.
  unfold splice1. rewrite (proj2 (Z.ltb_ge _ _)) by lia.
  destruct (decide (k < length l)%nat) as [Hlt|Hge].
  - by rewrite Z.min_l, Nat2Z.id by lia.
  - rewrite Z.min_r, Nat2Z.id by lia.
    rewrite !delete_take_drop, !take_ge, !drop_ge by lia. done.
Qed.

Lemma splice1_length {A} (index : Z) (l : list A) :
  (length (splice1 index l) ≤ length l)%nat.
Proof.
  unfold splice1. rewrite delete_take_drop, length_app, length_take, length_drop.
  lia.
Qed.

Lemma findIndex_none {A} (pred : A → bool) (l : list A) :
  (∀ x, x ∈ l → pred x = false) → findIndex pred l = -1.
Proof.
  induction l as [|x l IH]; intros H; simpl; [done|].
  rewrite (H x) by constructor.
  rewrite IH; [done|]. intros y Hy. apply H. by constructor.
Qed.

Lemma findIndex_first {A} (pred : A → bool) (pre : list A) x post :
  (∀ y, y ∈ pre → pred y = false) → pred x = true →
  findIndex pred (pre ++ x :: post) = Z.of_nat (length pre).
Proof.
  induction pre as [|y pre IH]; intros Hpre Hx; simpl.
  - by rewrite Hx.
  - rewrite (Hpre y) by constructor.
    rewrite IH; [|intros z Hz; apply Hpre; by constructor|done].
    rewrite (proj2 (Z.ltb_ge _ _)) by lia. lia.
Qed.

(** What [#removeEventListener] does on a key that is present, whatever
    the index. *)
Lemma removeEventListener_splice eventName (index : Z) arr w :
  events_ (this w) !! eventName = Some arr →
  removeEventListener eventName index w =
    (Normal tt,
     withEvents (stored eventName (splice1 index arr) (events_ (this w))) w).
Proof.
  intros Hk. unfold removeEventListener. unfold_M. fields.
  eval_property (getProperty_own _ _ _ Hk).
  eval_property (getProperty_insert (events_ (this w)) eventName
                   (splice1 index arr)).
  destruct (splice1 index arr) as [|e l] eqn:E; simpl; [|done].
  unfold withEvents. fields. by rewrite delete_insert_eq.
Qed.

Lemma removeEventListener_eval eventName (index : nat) arr w :
  events_ (this w) !! eventName = Some arr →
  removeEventListener eventName (Z.of_nat index) w =
    (Normal tt,
     withEvents (stored eventName (delete index arr) (events_ (this w))) w).
Proof.
  intros Hk. rewrite (removeEventListener_splice _ _ arr) by done.
  by rewrite splice1_index.
Qed.

(** On a key that is absent [#removeEventListener] throws and changes
    nothing. *)
Lemma removeEventListener_absent eventName index w :
  events_ (this w) !! eventName = None →
  (removeEventListener eventName index w).2 = w.
Proof.
  intros Hk. unfold removeEventListener. unfold_M. fields.
  unfold getProperty. rewrite Hk. by destruct (inherited eventName).
Qed.

(** What [removeListener] does once its two arguments are accepted. *)
Lemma removeListener_eval_any s f w :
  validName s →
  removeListener (VString s) (VFunction f) w =
    match getProperty (events_ (this w)) s with
    | Own arr =>
        let index := findIndex (sameListener f) arr in
        if -1 <? index then removeEventListener s index w else (Normal tt, w)
    | Inherited _ => (Throw (notAFunction "findIndex"), w)
    | Missing => (Normal tt, w)
    end.
Proof.
  intros Hs. unfold removeListener.
  rewrite (bind_normal _ _ _ _ _ (checkEventName_valid s w Hs)).
  cbv [mbind M_bind mret M_ret checkListener getEvents hasProperty getArray
       throw].
  destruct (getProperty (events_ (this w)) s) as [arr|v|] eqn:E;
    cbn beta; rewrite ?E; simpl; try done.
  by destruct (-1 <? _).
Qed.

Lemma removeListener_eval s f w :
  validName s →
  notInherited w s →
  removeListener (VString s) (VFunction f) w =
    match events_ (this w) !! s with
    | Some arr =>
        let index := findIndex (sameListener f) arr in
        if -1 <? index then removeEventListener s index w else (Normal tt, w)
    | None => (Normal tt, w)
    end.
Proof.
  intros Hs Hni. rewrite removeListener_eval_any by done.
  rewrite (getProperty_notInherited _ _ Hni).
  by destruct (events_ (this w) !! s).
Qed.

(** X23.  [removeListener], given a function and an accepted name, one that
    is a key of the emitter or is not inherited from the prototype, returns
    without error.  It changes nothing when the name is not a key or when no
    record under it carries the function.  Otherwise it takes out the first
    record, in the order of the array, that carries the function; the
    records before and after it, later ones with the same function included,
    stay as they are; and when the array is left empty the key is
    deleted. *)
Theorem removeListener_spec (w : World) (s : jsstring) (f : nat) :
  validName s →
  notInherited w s →
  let r := removeListener (VString s) (VFunction f) w in
  let evs := events_ (this w) in
  r.1 = Normal tt
  ∧ (evs !! s = None → r.2 = w)
  ∧ (∀ arr, evs !! s = Some arr →
       (∀ e, e ∈ arr → listener e ≠ f) → r.2 = w)
  ∧ (∀ pre e post, evs !! s = Some (pre ++ e :: post) →
       (∀ e', e' ∈ pre → listener e' ≠ f) → listener e = f →
       r.2 = withEvents
               (if decide (pre ++ post = []) then delete s evs
                else <[s := pre ++ post]> evs) w).
Proof.
  intros Hs Hni r evs. subst r. rewrite removeListener_eval by done. fold evs.
  destruct (evs !! s) as [arr|] eqn:Hk; [|by split_and!].
  split_and!.
  - simpl. destruct (-1 <? findIndex (sameListener f) arr) eqn:E; [|done].
    apply Z.ltb_lt in E.
    rewrite <- (Z2Nat.id (findIndex (sameListener f) arr)) by lia.
    by rewrite (removeEventListener_eval s _ arr).
  - done.
  - intros ? [= <-] Hno. simpl. rewrite findIndex_none; [done|].
    intros e He. unfold sameListener. apply bool_decide_eq_false_2.
    by apply Hno.
  - intros pre e post [= ->] Hpre He. simpl.
    rewrite findIndex_first; cycle 1.
    { intros e' He'. unfold sameListener. apply bool_decide_eq_false_2.
      by apply Hpre. }
    { unfold sameListener. by apply bool_decide_eq_true_2. }
    rewrite (proj2 (Z.ltb_lt _ _)) by lia.
    rewrite (removeEventListener_eval s _ (pre ++ e :: post)) by done.
    simpl. rewrite delete_middle. fold evs. unfold stored.
    destruct (pre ++ post); by case_decide.
Qed.

Lemma removeListener_spec_witness :
  let w := runAll [On (VString (str "x")) (VFunction 1);
                   On (VString (str "x")) (VFunction 2);
                   On (VString (str "x")) (VFunction 1)] (new VUndefined).2 in
  let r := removeListener (VString (str "x")) (VFunction 1) w in
  r.1 = Normal tt ∧ (rawListeners (VString (str "x")) r.2).1 = Normal [2; 1]%nat.
Proof.
  split.
  - apply (removeListener_spec
             (runAll [On (VString (str "x")) (VFunction 1);
                      On (VString (str "x")) (VFunction 2);
                      On (VString (str "x")) (VFunction 1)] (new VUndefined).2)
             (str "x") 1).
    + unfold validName. vm_compute. discriminate.
    + right. vm_compute. reflexivity.
  - vm_compute. reflexivity.
Defined.

(** ** Emission *)

Lemma stored_lookup eventName arr evs :
  stored eventName arr evs !! eventName
  = match arr with [] => None | _ => Some arr end.
Proof.
  destruct arr; simpl; [apply lookup_delete_eq | apply lookup_insert_eq].
Qed.

Lemma stored_stored eventName arr arr' evs :
  stored eventName arr (stored eventName arr' evs) = stored eventName arr evs.
Proof.
  destruct arr, arr'; simpl;
    rewrite ?delete_delete_eq, ?delete_insert_eq, ?insert_delete_eq,
      ?insert_insert_eq; done.
Qed.

Lemma stored_held eventName w :
  events_ (this w) !! eventName ≠ Some [] →
  stored eventName (held w eventName) (events_ (this w)) = events_ (this w).
Proof.
  intros Hk. unfold held.
  destruct (events_ (this w) !! eventName) as [[|e l]|] eqn:E; simpl.
  - done.
  - by apply insert_id.
  - by apply delete_id.
Qed.

Lemma held_stored eventName arr evs w :
  held (withEvents (stored eventName arr evs) w) eventName = arr.
Proof.
  unfold held. fields. rewrite stored_lookup. by destruct arr.
Qed.

(** One step of the [forEach] of [emit]. *)
Lemma visit_eval eventName index w :
  events_ (this w) !! eventName ≠ Some [] →
  visit eventName index w =
    (Normal tt,
     match held w eventName !! index with
     | Some event =>
         if isOnce event then
           withEvents
             (stored eventName (delete index (held w eventName))
                (events_ (this w))) w
         else w
     | None => w
     end).
Proof.
  intros Hk. unfold visit, walked.
  cbv [mbind M_bind mret M_ret getEvents]. fold (held w eventName).
  destruct (held w eventName !! index) as [event|] eqn:E; [|done].
  destruct (isOnce event); [|done].
  apply removeEventListener_eval.
  unfold held in *. destruct (events_ (this w) !! eventName); [done|].
  simpl in E. by rewrite lookup_nil in E.
Qed.

Lemma sweep_after_removal (pre rest : list event) :
  take (S (length pre)) (pre ++ rest)
  ++ sweep (drop (S (length pre)) (pre ++ rest))
  = pre ++ match rest with
           | [] => []
           | next :: rest' => next :: sweep rest'
           end.
Proof.
  induction pre as [|e pre IH]; simpl.
  - destruct rest; simpl; [done|]. by rewrite ?take_0, ?drop_0.
  - f_equal. apply IH.
Qed.

(** The whole [forEach] of [emit], in closed form: the records before
    [index] have been dealt with, the rest is swept. *)
Lemma forEachFrom_eval eventName remaining :
  ∀ index w,
    events_ (this w) !! eventName ≠ Some [] →
    (length (held w eventName) ≤ index + remaining)%nat →
    forEachFrom eventName index remaining w =
      (Normal tt,
       withEvents
         (stored eventName
            (take index (held w eventName)
             ++ sweep (drop index (held w eventName)))
            (events_ (this w))) w).
Proof.
  induction remaining as [|remaining IH]; intros index w Hk Hlen.
  - simpl. rewrite take_ge, drop_ge by lia. simpl.
    rewrite app_nil_r, stored_held by done. by rewrite withEvents_id.
  - cbn [forEachFrom].
    rewrite (bind_normal _ _ _ _ _ (visit_eval eventName index w Hk)).
    destruct (held w eventName !! index) as [event|] eqn:E.
    + rewrite (drop_S _ _ _ E).
      destruct (isOnce event) eqn:Honce.
      * rewrite IH; cycle 1.
        { fields. rewrite stored_lookup. by destruct (delete index _). }
        { rewrite held_stored, length_delete by eauto. lia. }
        rewrite held_stored. fields.
        rewrite stored_stored, withEvents_twice.
        do 3 f_equal.
        rewrite delete_take_drop.
        pose proof (sweep_after_removal (take index (held w eventName))
                      (drop (S index) (held w eventName))) as Hs.
        rewrite length_take, Nat.min_l in Hs
          by (apply lookup_lt_Some in E; lia).
        rewrite Hs. simpl. by rewrite Honce.
      * rewrite IH by (done || lia). do 3 f_equal.
        rewrite (take_S_r _ _ _ E), <- app_assoc. simpl. by rewrite Honce.
    + apply lookup_ge_None in E.
      rewrite IH by (done || lia).
      by rewrite !take_ge, !drop_ge by lia.
Qed.

(** A record that is not one-shot is never taken out, and the order of
    those records is kept. *)
Lemma sweep_keeps_permanent arr :
  List.filter (λ event, negb (isOnce event)) (sweep arr)
  = List.filter (λ event, negb (isOnce event)) arr.
Proof.
  induction arr as [arr IH] using (induction_ltof1 _ (@length event)).
  unfold ltof in IH.
  destruct arr as [|[[] f] rest]; [done| |].
  - destruct rest as [|e' rest']; [done|].
    cbn [sweep isOnce List.filter negb].
    rewrite (IH rest') by (simpl; lia). done.
  - cbn [sweep isOnce List.filter negb]. f_equal. apply IH. simpl. lia.
Qed.

Lemma stored_insert eventName arr arr' evs :
  stored eventName arr (<[eventName := arr']> evs) = stored eventName arr evs.
Proof.
  destruct arr; simpl; by rewrite ?delete_insert_eq, ?insert_insert_eq.
Qed.

Lemma withEvents_withCalls evs cs w :
  withCalls cs (withEvents evs w) = withEvents evs (withCalls cs w).
Proof. done. Qed.

Section EmitFacts.

Variable behaviour : nat → list value → script.

Lemma written_quiet args arr :
  noneWrites behaviour arr args → map (written behaviour args) arr = arr.
Proof.
  intros Hno. induction arr as [|e arr IH]; [done|]. simpl.
  rewrite IH by (intros e' He'; apply Hno; by constructor).
  unfold written, rewritten.
  destruct (Hno e) as [-> ->]; [constructor|]. by destruct e.
Qed.

(** One call of the callback of [map], on a record of the stored array,
    by a listener that calls no method of the emitter. *)
Lemma invoke_alone s args done e rest w :
  events_ (this w) !! s = Some (done ++ e :: rest) →
  nested (behaviour (listener e) args) = [] →
  invoke behaviour s (length done) None args e w =
    (Normal (outcome (behaviour (listener e) args), None),
     withEvents
       (<[s := done ++ written behaviour args e :: rest]> (events_ (this w)))
       (withCalls [(listener e, args)] w)).
Proof.
  intros Hk Hn. unfold invoke, writeRecord, written. rewrite Hn.
  cbv [mbind M_bind mret M_ret logCall runNested getEvents setEvents].
  fold (withCalls [(listener e, args)] w). fields.
  rewrite Hk. rewrite <- (Nat.add_0_r (length done)), alter_app_r. done.
Qed.

(** The [map] of [emit] when the listeners call no method of the emitter
    and none throws: each is called once, in the order of the array, with
    the arguments of [emit], and what a listener wrote to its record is
    found in the array. *)
Lemma mapFrom_settles s args rest :
  ∀ done w,
    events_ (this w) !! s = Some (done ++ rest) →
    noneThrows behaviour rest args →
    noneCalls behaviour rest args →
    mapFrom behaviour s args (length done) (length rest) None w =
      (Normal (map (λ e, outcome (behaviour (listener e) args)) rest),
       withEvents
         (<[s := done ++ map (written behaviour args) rest]>
            (events_ (this w)))
         (withCalls (map (λ e, (listener e, args)) rest) w)).
Proof.
  induction rest as [|e rest IH]; intros done w Hk Hthrow Hcall.
  - simpl. rewrite withCalls_nil, insert_id, withEvents_id; done.
  - cbn [mapFrom length]. unfold walked at 1.
    cbv [mbind M_bind mret M_ret getEvents]. rewrite Hk. cbn [default id].
    rewrite list_lookup_middle by done.
    rewrite (invoke_alone s args done e rest w Hk)
      by (apply Hcall; constructor).
    assert (noneThrows behaviour rest args) as Hthrow'
      by (intros e' r He'; apply Hthrow; by constructor).
    assert (noneCalls behaviour rest args) as Hcall'
      by (intros e' He'; apply Hcall; by constructor).
    pose proof (Hthrow e) as He.
    replace (S (length done))
      with (length (done ++ [written behaviour args e]))
      by (rewrite length_app; simpl; lia).
    destruct (outcome (behaviour (listener e) args)) as [|r|r] eqn:E.
    + rewrite IH; [|fields; rewrite lookup_insert_eq, <- app_assoc; done
                   |done|done].
      fields. rewrite insert_insert_eq, <- app_assoc. simpl.
      by rewrite withEvents_withCalls, withEvents_twice, withCalls_app, ?E.
    + rewrite IH; [|fields; rewrite lookup_insert_eq, <- app_assoc; done
                   |done|done].
      fields. rewrite insert_insert_eq, <- app_assoc. simpl.
      by rewrite withEvents_withCalls, withEvents_twice, withCalls_app, ?E.
    + exfalso. apply (He r); [constructor | done].
Qed.

(** A listener that throws ends the [map]: the listeners after it are not
    called. *)
Lemma mapFrom_throws s args pre event post reason :
  ∀ done w,
    events_ (this w) !! s = Some (done ++ pre ++ event :: post) →
    noneThrows behaviour pre args →
    noneCalls behaviour (pre ++ [event]) args →
    outcome (behaviour (listener event) args) = Throws reason →
    mapFrom behaviour s args (length done) (length (pre ++ event :: post))
      None w =
      (Throw (Uncaught reason),
       withEvents
         (<[s := done ++ map (written behaviour args) (pre ++ [event]) ++ post]>
            (events_ (this w)))
         (withCalls (map (λ e, (listener e, args)) (pre ++ [event])) w)).
Proof.
  induction pre as [|e pre IH]; intros done w Hk Hthrow Hcall Hev.
  - cbn [app] in Hk. cbn [mapFrom length app]. unfold walked at 1.
    cbv [mbind M_bind mret M_ret getEvents throw]. rewrite Hk. cbn [default id].
    rewrite list_lookup_middle by done.
    rewrite (invoke_alone s args done event post w Hk)
      by (apply Hcall; constructor).
    by rewrite Hev.
  - cbn [app] in Hk. cbn [mapFrom length app]. unfold walked at 1.
    cbv [mbind M_bind mret M_ret getEvents]. rewrite Hk. cbn [default id].
    rewrite list_lookup_middle by done.
    rewrite (invoke_alone s args done e (pre ++ event :: post) w Hk)
      by (apply Hcall; constructor).
    assert (noneThrows behaviour pre args) as Hthrow'
      by (intros e' r He'; apply Hthrow; by constructor).
    assert (noneCalls behaviour (pre ++ [event]) args) as Hcall'
      by (intros e' He'; apply Hcall; by constructor).
    pose proof (Hthrow e) as He.
    replace (S (length done))
      with (length (done ++ [written behaviour args e]))
      by (rewrite length_app; simpl; lia).
    destruct (outcome (behaviour (listener e) args)) as [|r|r] eqn:E.
    + rewrite IH; [|fields; rewrite lookup_insert_eq, <- app_assoc; done
                   |done|done|done].
      fields. rewrite insert_insert_eq, <- app_assoc. simpl.
      by rewrite withEvents_withCalls, withEvents_twice, withCalls_app, ?E.
    + rewrite IH; [|fields; rewrite lookup_insert_eq, <- app_assoc; done
                   |done|done|done].
      fields. rewrite insert_insert_eq, <- app_assoc. simpl.
      by rewrite withEvents_withCalls, withEvents_twice, withCalls_app, ?E.
    + exfalso. apply (He r); [constructor | done].
Qed.

(** [emit] once its name is accepted, by what is found under the name. *)
Lemma emit_eval s args w :
  validName s →
  emit behaviour (VString s) args w =
    match getProperty (events_ (this w)) s with
    | Own arr =>
        match mapFrom behaviour s args 0 (length arr) None w with
        | (Normal _, w') =>
            match getProperty (events_ (this w')) s with
            | Own arr' =>
                match forEachFrom s 0 (length arr') w' with
                | (Normal _, w'') => (Normal true, w'')
                | (Throw e, w'') => (Throw e, w'')
                end
            | Inherited _ => (Throw (notAFunction "forEach"), w')
            | Missing => (Throw ofUndefined, w')
            end
        | (Throw e, w') => (Throw e, w')
        end
    | Inherited _ => (Throw (notAFunction "map"), w)
    | Missing => (Normal false, w)
    end.
Proof.
  intros Hs. unfold emit.
  rewrite (bind_normal _ _ _ _ _ (checkEventName_valid s w Hs)).
  cbv [mbind M_bind mret M_ret getEvents getArray throw allSettled
       hasProperty].
  destruct (getProperty (events_ (this w)) s) as [arr|v|] eqn:E;
    cbn beta; rewrite ?E; simpl; try done.
  destruct (mapFrom behaviour s args 0 (length arr) None w) as [[ps|e] w'];
    [|done].
  destruct (getProperty (events_ (this w')) s) as [arr'|v'|] eqn:E';
    cbn beta; rewrite ?E'; simpl; try done.
Qed.

(** [emit] on a name under which nothing is found, in the emitter or in
    the prototype, returns false and calls nothing. *)
Lemma emit_unknown s args w :
  validName s → events_ (this w) !! s = None → plainName s →
  emit behaviour (VString s) args w = (Normal false, w).
Proof.
  intros Hs Hk Hp. rewrite emit_eval by done.
  by rewrite (getProperty_missing _ _ Hk Hp).
Qed.

(** [emit] on a name that is no key of the emitter but is inherited from
    the prototype throws, so that its promise is rejected. *)
Lemma emit_inherited s args w v :
  validName s → events_ (this w) !! s = None → inherited s = Some v →
  emit behaviour (VString s) args w = (Throw (notAFunction "map"), w).
Proof.
  intros Hs Hk Hv. rewrite emit_eval by done.
  by rewrite (getProperty_inherited _ _ _ Hk Hv).
Qed.

(** [emit] on a key whose listeners do not throw and call no method of the
    emitter returns true after calling every listener once, in order, with
    the arguments it was given; promises that are rejected change nothing;
    the array, with what the listeners wrote to their records, is then
    swept. *)
Lemma emit_known s args w arr :
  validName s → events_ (this w) !! s = Some arr → arr ≠ [] →
  noneThrows behaviour arr args →
  noneCalls behaviour arr args →
  emit behaviour (VString s) args w =
    (Normal true,
     withEvents
       (stored s (sweep (map (written behaviour args) arr)) (events_ (this w)))
       (withCalls (map (λ event, (listener event, args)) arr) w)).
Proof.
  intros Hs Hk Hne Hno Hcall. rewrite emit_eval by done.
  rewrite (getProperty_own _ _ _ Hk).
  pose proof (mapFrom_settles s args arr [] w Hk Hno Hcall) as Hm.
  cbn [length app] in Hm. rewrite Hm. fields.
  rewrite getProperty_insert, length_map.
  assert (map (written behaviour args) arr ≠ []) as Hne'
    by (by destruct arr).
  rewrite forEachFrom_eval; fields.
  - unfold held. fields. rewrite lookup_insert_eq. simpl.
    by rewrite drop_0, stored_insert.
  - rewrite lookup_insert_eq. congruence.
  - unfold held. fields. rewrite lookup_insert_eq. simpl.
    rewrite length_map. lia.
Qed.

(** [emit] on a key one of whose listeners throws: the listeners after it
    are not called, nothing is taken out of the array, and the promise of
    [emit] is rejected with what was thrown. *)
Lemma emit_throws s args w pre event post reason :
  validName s → events_ (this w) !! s = Some (pre ++ event :: post) →
  noneThrows behaviour pre args →
  noneCalls behaviour (pre ++ [event]) args →
  outcome (behaviour (listener event) args) = Throws reason →
  emit behaviour (VString s) args w =
    (Throw (Uncaught reason),
     withEvents
       (<[s := map (written behaviour args) (pre ++ [event]) ++ post]>
          (events_ (this w)))
       (withCalls (map (λ event, (listener event, args)) (pre ++ [event])) w)).
Proof.
  intros Hs Hk Hno Hcall Hev. rewrite emit_eval by done.
  rewrite (getProperty_own _ _ _ Hk).
  pose proof (mapFrom_throws s args pre event post reason [] w
                Hk Hno Hcall Hev) as Hm.
  cbn [length app] in Hm. by rewrite Hm.
Qed.

End EmitFacts.

(** ** What emission preserves *)

Lemma preserves_bind {A B} (P : World → Prop) (m : M A) (k : A → M B) :
  preserves P m → (∀ a, preserves P (k a)) → preserves P (m ≫= k).
Proof.
  intros Hm Hk w HP. unfold mbind, M_bind. specialize (Hm w HP).
  destruct (m w) as [[a|e] w']; simpl in *; [|done]. by apply Hk.
Qed.

Lemma preserves_ret {A} (P : World → Prop) (a : A) : preserves P (mret a).
Proof. by intros w. Qed.

Lemma preserves_throw {A} (P : World → Prop) e : preserves P (@throw A e).
Proof. by intros w. Qed.

Lemma preserves_frame {A} (P : World → Prop) (m : M A) :
  (∀ w, (m w).2 = w) → preserves P m.
Proof. intros H w. by rewrite H. Qed.

Lemma preserves_getArray P eventName method :
  preserves P (getArray eventName method).
Proof.
  apply preserves_frame. intros w. unfold getArray.
  cbv [mbind M_bind mret M_ret getEvents throw].
  by destruct (getProperty (events_ (this w)) eventName).
Qed.

(** A property of the emitter that the calls of the listeners, what the
    listeners write and the removal of a record preserve is preserved by
    [emit], whether it returns or throws. *)
Section EmitPreserves.

Variable behaviour : nat → list value → script.
Variable P : World → Prop.
Variable s : jsstring.

Hypothesis P_logCall : ∀ f args, preserves P (logCall f args).
Hypothesis P_write :
  ∀ index (update : event → event) arr w,
    P w → events_ (this w) !! s = Some arr →
    P (withEvents (<[s := alter update index arr]> (events_ (this w))) w).
Hypothesis P_nested :
  ∀ f args c, c ∈ nested (behaviour f args) → ∀ w, P w → P (afterSync c w).
Hypothesis P_remove : ∀ index, preserves P (removeEventListener s index).

Lemma preserves_walked : preserves P (walked s).
Proof. by apply preserves_frame. Qed.

Lemma preserves_writeRecord index update detached :
  preserves P (writeRecord s index update detached).
Proof.
  intros w HP. unfold writeRecord. destruct detached; [done|].
  cbv [mbind M_bind mret M_ret getEvents setEvents].
  destruct (events_ (this w) !! s) eqn:E; [|done]. simpl. by apply P_write.
Qed.

Lemma preserves_runNested cs :
  (∀ c, c ∈ cs → ∀ w, P w → P (afterSync c w)) →
  ∀ detached, preserves P (runNested s cs detached).
Proof.
  induction cs as [|c cs IH]; intros Hcs detached; [apply preserves_ret|].
  cbn [runNested]. apply preserves_bind; [apply preserves_walked|].
  intros before. apply preserves_bind.
  { intros w HP. simpl. apply Hcs; [constructor | done]. }
  intros _. apply preserves_bind; [by apply preserves_frame|]. intros evs.
  apply IH. intros c' Hc'. apply Hcs. by constructor.
Qed.

Lemma preserves_invoke index detached args e :
  preserves P (invoke behaviour s index detached args e).
Proof.
  unfold invoke. apply preserves_bind; [apply P_logCall|]. intros _.
  apply preserves_bind; [apply preserves_writeRecord|].
  intros detached'. apply preserves_bind; [|intros ?; apply preserves_ret].
  apply preserves_runNested. intros c Hc. by apply (P_nested _ _ _ Hc).
Qed.

Lemma preserves_mapFrom args remaining :
  ∀ index detached,
    preserves P (mapFrom behaviour s args index remaining detached).
Proof.
  induction remaining as [|remaining IH]; intros index detached;
    [apply preserves_ret|].
  cbn [mapFrom]. apply preserves_bind.
  { destruct detached; [apply preserves_ret | apply preserves_walked]. }
  intros arr. destruct (arr !! index) as [e|]; [|apply IH].
  apply preserves_bind; [apply preserves_invoke|].
  intros [promise detached'].
  destruct promise; try apply preserves_throw;
    (apply preserves_bind; [apply IH | intros ?; apply preserves_ret]).
Qed.

Lemma preserves_forEachFrom remaining :
  ∀ index, preserves P (forEachFrom s index remaining).
Proof.
  induction remaining as [|remaining IH]; intros index;
    [apply preserves_ret|].
  cbn [forEachFrom]. apply preserves_bind; [|intros _; apply IH].
  unfold visit. apply preserves_bind; [apply preserves_walked|].
  intros arr. destruct (arr !! index) as [e|]; [|apply preserves_ret].
  destruct (isOnce e); [apply P_remove | apply preserves_ret].
Qed.

Lemma preserves_emit args : preserves P (emit behaviour (VString s) args).
Proof.
  intros w HP. unfold emit, checkEventName. cbv [mbind M_bind throw] .
  case_bool_decide as Hs; [done|]. cbv [mret M_ret getEvents].
  destruct (hasProperty (events_ (this w)) s); [|done].
  revert w HP.
  change (preserves P
            (arr ← getArray s "map";
             promises ← mapFrom behaviour s args 0 (length arr) None;
             allSettled promises;;
             arr ← getArray s "forEach";
             forEachFrom s 0 (length arr);; mret true)).
  apply preserves_bind; [apply preserves_getArray|]. intros arr.
  apply preserves_bind; [apply preserves_mapFrom|]. intros promises.
  apply preserves_bind; [apply preserves_ret|]. intros _.
  apply preserves_bind; [apply preserves_getArray|]. intros arr'.
  apply preserves_bind; [apply preserves_forEachFrom|]. intros _.
  apply preserves_ret.
Qed.

End EmitPreserves.

(** ** Where the code departs from the specification *)

(** C1.  Two one-shot records next to each other: [once('x', f1)] then
    [once('x', f2)] on a fresh emitter.  One [emit('x')] returns true and
    calls both listeners, but takes out only the first record: removing it
    moves the second one to index 0 while [forEach] goes on to index 1, so
    the second one-shot record is still registered afterwards. *)
Theorem emit_keeps_second_once :
  let w := runAll [Once (VString (str "x")) (VFunction 1);
                   Once (VString (str "x")) (VFunction 2)] (new VUndefined).2 in
  let r := emit sample (VString (str "x")) [] w in
  held w (str "x") = [Event true 1; Event true 2]
  ∧ r.1 = Normal true
  ∧ calls r.2 = [(1%nat, []); (2%nat, [])]
  ∧ held r.2 (str "x") = [Event true 2].
Proof. vm_compute. done. Qed.

(** C2.  A listener that throws: [on('x', f13)] then [on('x', f3)] on a
    fresh emitter, where calling [f13] throws 'boom'.  [emit('x')] calls
    [f13] only; [f3] is never called, and the promise of [emit] is rejected
    with 'boom' instead of being fulfilled with true. *)
Theorem emit_rejects_when_listener_throws :
  let w := runAll [On (VString (str "x")) (VFunction 13);
                   On (VString (str "x")) (VFunction 3)] (new VUndefined).2 in
  let r := emit sample (VString (str "x")) [] w in
  held w (str "x") = [Event false 13; Event false 3]
  ∧ r.1 = Throw (Uncaught (VString (str "boom")))
  ∧ calls r.2 = [(13%nat, [])].
Proof. vm_compute. done. Qed.

(** C3.  An emitter of capacity 0 and a first registration for 'x':
    [addListener('x', f1)] throws [Error 'Memory leak detected'], and the
    state it leaves, which is a reachable one, has the key 'x' with an empty
    array. *)
Theorem failed_registration_leaves_empty_key :
  let w0 := (new (VNumber (Int 0))).2 in
  let c := AddListener (VString (str "x")) (VFunction 1) in
  (addListener (VString (str "x")) (VFunction 1) w0).1
    = Throw (Error "Memory leak detected")
  ∧ reachable sample (after sample c w0)
  ∧ events_ (this (after sample c w0)) !! str "x" = Some []
  ∧ ¬ nonEmptyKeys (after sample c w0).
Proof.
  intros w0 c.
  assert (events_ (this (after sample c w0)) !! str "x" = Some []) as Hk
    by (vm_compute; done).
  split_and!.
  - vm_compute. done.
  - apply reachable_call. by apply (reachable_new sample (VNumber (Int 0))).
  - done.
  - intros Hinv. by apply (Hinv _ _ Hk).
Qed.

(** C4.  Names that differ only by surrounding white space.  After
    [addListener(' x ', f1)] the listener is found under 'x' but not under
    ' x ', the very name it was registered with: [rawListeners(' x ')] is
    empty, [listenerCount(' x ')] is 0, [emit(' x ')] returns false and calls
    nothing, and [removeListener(' x ', f1)] removes nothing.  Likewise,
    after [addListener('x', f1)], [emit(' x ')] returns false. *)
Theorem padded_name_is_not_found :
  let padded := VString (str " x ") in
  let plain := VString (str "x") in
  let w := (addListener padded (VFunction 1) (new VUndefined).2).2 in
  let w' := (addListener plain (VFunction 1) (new VUndefined).2).2 in
  trim (str " x ") = trim (str "x")
  ∧ (rawListeners plain w).1 = Normal [1%nat]
  ∧ (rawListeners padded w).1 = Normal []
  ∧ (listenerCount padded VUndefined w).1 = Normal 0
  ∧ emit sample padded [] w = (Normal false, w)
  ∧ removeListener padded (VFunction 1) w = (Normal tt, w)
  ∧ emit sample padded [] w' = (Normal false, w').
Proof. vm_compute. done. Qed.

(** C5.  Two calls of [emit] that do not do what is expected of them.
    After a registration that failed on an emitter of capacity 0, 'x' has no
    listener ([listenerCount('x')] is 0), yet [emit('x')] returns true.  And
    on an emitter where 'x' has the listeners [f13], which throws, and [f3],
    [emit('x', null)] does not return true and calls [f13] only. *)
Theorem emit_result_departs :
  let x := VString (str "x") in
  let w := runAll [AddListener x (VFunction 1)] (new (VNumber (Int 0))).2 in
  let w' := runAll [On x (VFunction 13); On x (VFunction 3)]
              (new VUndefined).2 in
  ((listenerCount x VUndefined w).1 = Normal 0
   ∧ emit sample x [] w = (Normal true, w))
  ∧ ((rawListeners x w').1 = Normal [13; 3]%nat
     ∧ (emit sample x [VNull] w').1 ≠ Normal true
     ∧ calls (emit sample x [VNull] w').2 = [(13%nat, [VNull])]).
Proof. vm_compute. split_and!; done. Qed.

(** C6.  A name that a plain object inherits: 'toString' on a fresh
    emitter of capacity 10.  [listenerCount('toString')] is 0, so one more
    listener is within the capacity, yet no registration method succeeds:
    [eventName in this.#events] is true of the inherited function, no array
    is made, and [push] or [unshift] is called on what is not an array.  The
    call throws a [TypeError] and registers nothing. *)
Theorem registration_fails_under_inherited_name :
  let w := (new VUndefined).2 in
  let name := VString (str "toString") in
  let f := VFunction 1 in
  maxListeners_ (this w) = Some (Finite 10)
  ∧ (listenerCount name VUndefined w).1 = Normal 0
  ∧ fits (0 + 1) (Finite 10)
  ∧ addListener name f w = (Throw (TypeError "push is not a function"), w)
  ∧ on name f w = (Throw (TypeError "push is not a function"), w)
  ∧ once name f w = (Throw (TypeError "push is not a function"), w)
  ∧ prependListener name f w
    = (Throw (TypeError "unshift is not a function"), w)
  ∧ prependOnceListener name f w
    = (Throw (TypeError "unshift is not a function"), w).
Proof. vm_compute. split_and!; done. Qed.

(** C8.  A name that a plain object inherits: 'constructor' on a fresh
    emitter.  The emitter has no event at all, yet
    [removeListener('constructor', f)], and [off] likewise, is not a no-op:
    [eventName in this.#events] is true of the inherited function, and
    [findIndex] is called on what is not an array.  The call throws a
    [TypeError]. *)
Theorem removeListener_throws_under_inherited_name :
  let w := (new VUndefined).2 in
  let name := VString (str "constructor") in
  (eventNames w).1 = Normal []
  ∧ events_ (this w) !! str "constructor" = None
  ∧ removeListener name (VFunction 1) w
    = (Throw (TypeError "findIndex is not a function"), w)
  ∧ off name (VFunction 1) w
    = (Throw (TypeError "findIndex is not a function"), w).
Proof. vm_compute. split_and!; done. Qed.

(** C9.  A name that a plain object inherits: '__proto__' on an emitter of
    capacity 0.  What is read as the length is undefined, [undefined + 1 > 0]
    is false, and the registration goes on to call [push] or [unshift] on
    the prototype object: a [TypeError], not [Error 'Memory leak
    detected']. *)
Theorem capacity_zero_under_inherited_name :
  let w := (new (VNumber (Int 0))).2 in
  let name := VString (str "__proto__") in
  let f := VFunction 1 in
  maxListeners_ (this w) = Some (Finite 0)
  ∧ validName (str "__proto__")
  ∧ addListener name f w = (Throw (TypeError "push is not a function"), w)
  ∧ on name f w = (Throw (TypeError "push is not a function"), w)
  ∧ once name f w = (Throw (TypeError "push is not a function"), w)
  ∧ prependListener name f w
    = (Throw (TypeError "unshift is not a function"), w)
  ∧ prependOnceListener name f w
    = (Throw (TypeError "unshift is not a function"), w)
  ∧ (∀ register, register ∈ registrations →
       (register name f w).1 ≠ Throw (Error "Memory leak detected")).
Proof.
  intros w name f. split_and!.
  1-7: by vm_compute.
  intros register Hreg.
  apply registrations_inv in Hreg as (isPrepend & isOnce & ->).
  destruct isPrepend, isOnce; vm_compute; discriminate.
Qed.

(** ** What holds in their place *)

(** *** Names *)

Lemma trimStart_suffix s : ∃ k, trimStart s = drop k s.
Proof.
  induction s as [|c s [k IH]]; simpl.
  - by exists 0%nat.
  - destruct (isWhiteSpace c); [by exists (S k) | by exists 0%nat].
Qed.

Lemma trimStart_head s c :
  head (trimStart s) = Some c → isWhiteSpace c = false.
Proof.
  induction s as [|c' s IH]; simpl; [done|].
  destruct (isWhiteSpace c') eqn:E; [done|]. simpl. congruence.
Qed.

Lemma trimStart_fixed s :
  (∀ c, head s = Some c → isWhiteSpace c = false) → trimStart s = s.
Proof.
  destruct s as [|c s]; simpl; [done|]. intros H. by rewrite (H c).
Qed.

Lemma trimStart_idempotent s : trimStart (trimStart s) = trimStart s.
Proof. apply trimStart_fixed, trimStart_head. Qed.

Lemma trimEnd_prefix s : ∃ k, trimEnd s = take k s.
Proof.
  unfold trimEnd. destruct (trimStart_suffix (reverse s)) as [k ->].
  exists (length s - k)%nat.
  by rewrite reverse_drop, reverse_involutive, length_reverse.
Qed.

Lemma head_take {A} (l : list A) k x : head (take k l) = Some x → head l = Some x.
Proof. destruct l, k; simpl; done. Qed.

(** Trimming a trimmed name changes nothing. *)
Lemma trim_idempotent s : trim (trim s) = trim s.
Proof.
  unfold trim.
  assert (trimStart (trimEnd (trimStart s)) = trimEnd (trimStart s)) as ->.
  { apply trimStart_fixed. intros c Hc.
    destruct (trimEnd_prefix (trimStart s)) as [k Hk]. rewrite Hk in Hc.
    by apply head_take, trimStart_head in Hc. }
  unfold trimEnd. by rewrite reverse_involutive, trimStart_idempotent.
Qed.

Lemma validName_trim s : validName s → validName (trim s).
Proof. unfold validName. by rewrite trim_idempotent. Qed.

(** *** What the queries return *)

Lemma notInherited_plain w key : plainName key → notInherited w key.
Proof. by right. Qed.

Lemma notInherited_dec w key :
  notInherited w key
  ∨ (events_ (this w) !! key = None ∧ ∃ v, inherited key = Some v).
Proof.
  unfold notInherited, plainName.
  destruct (events_ (this w) !! key) as [arr|]; [left; left; by eexists|].
  destruct (inherited key) as [v|]; [right; eauto | left; by right].
Qed.

Lemma rawListeners_eval s w :
  validName s → notInherited w s →
  rawListeners (VString s) w = (Normal (map listener (held w s)), w).
Proof.
  intros Hs Hni. unfold rawListeners.
  rewrite (bind_normal _ _ _ _ _ (checkEventName_valid s w Hs)).
  cbv [hasProperty]. unfold_M. unfold held.
  destruct (events_ (this w) !! s) as [arr|] eqn:Hk.
  - by eval_property (getProperty_own _ _ _ Hk).
  - pose proof (notInherited_absent _ _ Hni Hk) as Hp.
    by eval_property (getProperty_missing _ _ Hk Hp).
Qed.

Lemma listeners_eval s w :
  validName s → notInherited w s →
  listeners (VString s) w = (Normal (map listener (permanent (held w s))), w).
Proof.
  intros Hs Hni. unfold listeners.
  rewrite (bind_normal _ _ _ _ _ (checkEventName_valid s w Hs)).
  cbv [hasProperty]. unfold_M. unfold held.
  destruct (events_ (this w) !! s) as [arr|] eqn:Hk.
  - by eval_property (getProperty_own _ _ _ Hk).
  - pose proof (notInherited_absent _ _ Hni Hk) as Hp.
    by eval_property (getProperty_missing _ _ Hk Hp).
Qed.

(** Under a name the object only inherits, the two queries that list
    functions throw. *)
Lemma rawListeners_inherited s w v :
  validName s → events_ (this w) !! s = None → inherited s = Some v →
  rawListeners (VString s) w = (Throw (notAFunction "map"), w)
  ∧ listeners (VString s) w = (Throw (notAFunction "filter"), w).
Proof.
  intros Hs Hk Hv. unfold rawListeners, listeners.
  rewrite !(bind_normal _ _ _ _ _ (checkEventName_valid s w Hs)).
  cbv [hasProperty]. unfold_M.
  by eval_property (getProperty_inherited _ _ _ Hk Hv).
Qed.


(** *** One-shot records *)

(** Whatever [emit] takes out, the records that are not one-shot stay, in
    their order, when the listeners leave their records alone. *)
Lemma emit_keeps_permanent behaviour s args w arr :
  validName s → events_ (this w) !! s = Some arr → arr ≠ [] →
  noneThrows behaviour arr args →
  noneCalls behaviour arr args →
  noneWrites behaviour arr args →
  List.filter (λ event, negb (isOnce event))
    (held (emit behaviour (VString s) args w).2 s)
  = List.filter (λ event, negb (isOnce event)) arr.
Proof.
  intros Hs Hk Hne Hno Hcall Hwrite.
  rewrite (emit_known behaviour s args w arr) by done.
  fields. rewrite held_stored, written_quiet by done.
  apply sweep_keeps_permanent.
Qed.


(** ** The calls, one by one *)

(** A call of a public method is a call of [emit] or one that a listener
    may make as well. *)
Lemma after_cases behaviour c :
  (∃ eventName args, c = Emit eventName args)
  ∨ ∃ c', ∀ w, after behaviour c w = afterSync c' w.
Proof.
  destruct c as [v| | |e a|e l|e l|e l|e l|e l|e l|e|e|e l|e l|e].
  - right. by exists (Sync.SetMaxListeners v).
  - right. by exists Sync.GetMaxListeners.
  - right. by exists Sync.EventNames.
  - left. by exists e, a.
  - right. by exists (Sync.AddListener e l).
  - right. by exists (Sync.On e l).
  - right. by exists (Sync.Once e l).
  - right. by exists (Sync.PrependListener e l).
  - right. by exists (Sync.PrependOnceListener e l).
  - right. by exists (Sync.ListenerCount e l).
  - right. by exists (Sync.Listeners e).
  - right. by exists (Sync.RawListeners e).
  - right. by exists (Sync.Off e l).
  - right. by exists (Sync.RemoveListener e l).
  - right. by exists (Sync.RemoveAllListeners e).
Qed.

Lemma setter_or_not c :
  (∃ v, c = Sync.SetMaxListeners v) ∨ (∀ v, c ≠ Sync.SetMaxListeners v).
Proof. destruct c; try (by right); left; by eexists. Qed.

Lemma string_or_not (v : value) : (∃ s, v = VString s) ∨ (∀ s, v ≠ VString s).
Proof. destruct v; try (by right); left; by eexists. Qed.

(** [emit] with a name that is not a string changes nothing. *)
Lemma emit_not_string behaviour eventName args w :
  (∀ s, eventName ≠ VString s) → (emit behaviour eventName args w).2 = w.
Proof. intros H. destruct eventName as [| | | |s| |]; try done. by destruct (H s). Qed.

Lemma addEventListener_rejects eventName listener isPrepend isOnce w :
  (∃ s f, eventName = VString s ∧ listener = VFunction f ∧ validName s)
  ∨ (addEventListener eventName listener isPrepend isOnce w).2 = w.
Proof.
  destruct eventName as [| | | |s| |]; try by right.
  unfold addEventListener, checkEventName.
  case_bool_decide as Hs; [by right|].
  destruct listener as [| | | | |f|]; try by right.
  left. by exists s, f.
Qed.

Lemma removeListener_rejects eventName listener w :
  (∃ s f, eventName = VString s ∧ listener = VFunction f ∧ validName s)
  ∨ (removeListener eventName listener w).2 = w.
Proof.
  destruct eventName as [| | | |s| |]; try by right.
  unfold removeListener, checkEventName.
  case_bool_decide as Hs; [by right|].
  destruct listener as [| | | | |f|]; try by right.
  left. by exists s, f.
Qed.

Lemma fits_mono n n' m : n' <= n → fits n m → fits n' m.
Proof. destruct m; simpl; [lia | done]. Qed.

Lemma acceptable_fits_zero v c : acceptable v c → fits 0 c.
Proof. by intros [z Hz|]. Qed.

Lemma acceptable_dec v : (∃ c, acceptable v c) ∨ (∀ c, ¬ acceptable v c).
Proof.
  destruct v as [| |b|[| | |z|]|s|f|];
    try (right; intros c Hc; inversion Hc; fail).
  - left. exists Unbounded. constructor.
  - destruct (decide (0 <= z)) as [Hz|Hz].
    + left. exists (Finite z). by constructor.
    + right. intros c Hc. by inversion Hc.
Qed.

(** The setter either throws and changes nothing, or stores a capacity that
    no event exceeds. *)
Lemma set_maxListeners_cases v w :
  (∃ e, set_maxListeners v w = (Throw e, w))
  ∨ ∃ c, acceptable (proposed v) c ∧ ¬ overfull c w
         ∧ set_maxListeners v w = (Normal tt, withMax c w).
Proof.
  destruct (acceptable_dec (proposed v)) as [[c Hc]|Hno].
  - rewrite (set_maxListeners_valid v c) by done.
    destruct (existsb _ _) eqn:E.
    + left. by eexists.
    + right. exists c. split_and!; [done| |done].
      intros Hfull. apply some_exceeds in Hfull. congruence.
  - left. eexists. by apply set_maxListeners_invalid.
Qed.

Lemma set_maxListeners_calls v : keeps calls (set_maxListeners v).
Proof.
  intros w. unfold set_maxListeners.
  cbv [mbind M_bind mret M_ret throw getEvents setMax].
  destruct (negb _ && bool_decide _); [done|].
  destruct (match v with VUndefined => _ | _ => _ end) as [| |b|[| | |z|]|s|g|];
    try (destruct (z <? 0); [done|]); by destruct (existsb _ _).
Qed.

Lemma afterSync_calls c w : calls (afterSync c w) = calls w.
Proof.
  destruct c; simpl.
  - apply set_maxListeners_calls.
  - done.
  - done.
  - by apply (keeps_addEventListener calls).
  - by apply (keeps_addEventListener calls).
  - by apply (keeps_addEventListener calls).
  - by apply (keeps_addEventListener calls).
  - by apply (keeps_addEventListener calls).
  - by rewrite listenerCount_frame.
  - by rewrite listeners_frame.
  - by rewrite rawListeners_frame.
  - by apply (keeps_removeListener calls).
  - by apply (keeps_removeListener calls).
  - by apply (keeps_removeAllListeners calls).
Qed.

Lemma afterSync_capacity c w :
  (∀ v, c ≠ Sync.SetMaxListeners v) →
  maxListeners_ (this (afterSync c w)) = maxListeners_ (this w).
Proof.
  intros Hc.
  destruct c; simpl; try by destruct (Hc maxListeners).
  - done.
  - done.
  - by apply (keeps_addEventListener (λ w, maxListeners_ (this w))).
  - by apply (keeps_addEventListener (λ w, maxListeners_ (this w))).
  - by apply (keeps_addEventListener (λ w, maxListeners_ (this w))).
  - by apply (keeps_addEventListener (λ w, maxListeners_ (this w))).
  - by apply (keeps_addEventListener (λ w, maxListeners_ (this w))).
  - by rewrite listenerCount_frame.
  - by rewrite listeners_frame.
  - by rewrite rawListeners_frame.
  - by apply (keeps_removeListener (λ w, maxListeners_ (this w))).
  - by apply (keeps_removeListener (λ w, maxListeners_ (this w))).
  - by apply (keeps_removeAllListeners (λ w, maxListeners_ (this w))).
Qed.

Lemma set_maxListeners_events v w :
  events_ (this (set_maxListeners v w).2) = events_ (this w).
Proof.
  destruct (set_maxListeners_cases v w) as [[e ->]|(c & _ & _ & ->)]; done.
Qed.

(** The setter leaves a capacity of at least 1 unless it is given 0. *)
Lemma set_maxListeners_roomForOne v w :
  v ≠ VNumber (Int 0) →
  roomForOne w → roomForOne (set_maxListeners v w).2.
Proof.
  intros Hv Hw.
  destruct (set_maxListeners_cases v w) as [[e ->]|(c & Hc & _ & ->)];
    [done|].
  intros z. fields. intros [= ->].
  inversion Hc as [z' Hz Hp|]; subst.
  destruct (decide (z = 0)) as [->|]; [|lia].
  destruct v as [| |b|[| | |z'|]|s|f|]; simpl in Hp; try done; congruence.
Qed.

(** *** Keys without records *)

Lemma stored_nonEmpty eventName arr w :
  nonEmptyKeys w →
  nonEmptyKeys (withEvents (stored eventName arr (events_ (this w))) w).
Proof.
  intros Hinv k l. fields. unfold stored.
  destruct arr as [|e arr].
  - intros Hk. apply lookup_delete_Some in Hk as [_ Hk]. by apply (Hinv k).
  - intros Hk. apply lookup_insert_Some in Hk as [[_ <-]|[_ Hk]]; [done|].
    by apply (Hinv k).
Qed.

Lemma nonEmptyKeys_events w w' :
  events_ (this w') = events_ (this w) → nonEmptyKeys w → nonEmptyKeys w'.
Proof. unfold nonEmptyKeys. by intros ->. Qed.

Lemma removeEventListener_nonEmpty eventName index w :
  nonEmptyKeys w → nonEmptyKeys (removeEventListener eventName index w).2.
Proof.
  intros Hinv. destruct (events_ (this w) !! eventName) as [arr|] eqn:Hk.
  - rewrite (removeEventListener_splice _ _ arr) by done.
    by apply stored_nonEmpty.
  - by rewrite removeEventListener_absent.
Qed.

Lemma addEventListener_nonEmpty eventName listener isPrepend isOnce w :
  roomForOne w →
  nonEmptyKeys w →
  nonEmptyKeys (addEventListener eventName listener isPrepend isOnce w).2.
Proof.
  intros Hcap Hinv.
  destruct (addEventListener_rejects eventName listener isPrepend isOnce w)
    as [(s & f & -> & -> & Hs)| ->]; [|done].
  destruct (notInherited_dec w (trim s)) as [Hni|(Hk & v & Hv)]; cycle 1.
  { by rewrite (addEventListener_inherited s f isPrepend isOnce w v). }
  rewrite addEventListener_eval by done.
  destruct (exceeds _ _) eqn:E; simpl.
  - case_bool_decide as Hin; [done|]. exfalso.
    apply not_elem_of_dom in Hin. rewrite (held_absent _ _ Hin) in E.
    destruct (maxListeners_ (this w)) as [[z|]|] eqn:Hm; try done.
    simpl in E. apply Z.ltb_lt in E. specialize (Hcap z Hm). lia.
  - intros k l. fields. intros Hk.
    apply lookup_insert_Some in Hk as [[_ <-]|[_ Hk]]; [|by apply (Hinv k)].
    destruct isPrepend; [done|]. by destruct (held w (trim s)).
Qed.

Lemma removeListener_nonEmpty eventName listener w :
  nonEmptyKeys w → nonEmptyKeys (removeListener eventName listener w).2.
Proof.
  intros Hinv.
  destruct (removeListener_rejects eventName listener w)
    as [(s & f & -> & -> & Hs)| ->]; [|done].
  rewrite removeListener_eval_any by done.
  destruct (getProperty (events_ (this w)) s) as [arr|v|]; [|done|done].
  simpl. destruct (-1 <? findIndex (sameListener f) arr); [|done].
  by apply removeEventListener_nonEmpty.
Qed.

Lemma removeAllListeners_events eventName w :
  events_ (this (removeAllListeners eventName w).2) = events_ (this w)
  ∨ events_ (this (removeAllListeners eventName w).2) = ∅
  ∨ ∃ s, eventName = VString s
         ∧ events_ (this (removeAllListeners eventName w).2)
           = delete s (events_ (this w)).
Proof.
  destruct eventName as [| | | |s| |]; try by left.
  - right. by left.
  - unfold removeAllListeners, checkEventName.
    case_bool_decide as Hs; [by left|].
    cbv [mbind M_bind mret M_ret getEvents setEvents].
    destruct (hasProperty _ _); [|by left]. right. right. by exists s.
Qed.

Lemma removeAllListeners_nonEmpty eventName w :
  nonEmptyKeys w → nonEmptyKeys (removeAllListeners eventName w).2.
Proof.
  intros Hinv k l.
  destruct (removeAllListeners_events eventName w) as [->|[->|(s & _ & ->)]].
  - apply Hinv.
  - by rewrite lookup_empty.
  - intros Hk. apply lookup_delete_Some in Hk as [_ Hk]. by apply (Hinv k).
Qed.

Lemma afterSync_nonEmpty c w :
  c ≠ Sync.SetMaxListeners (VNumber (Int 0)) →
  roomForOne w ∧ nonEmptyKeys w →
  roomForOne (afterSync c w) ∧ nonEmptyKeys (afterSync c w).
Proof.
  intros Hc [Hcap Hinv].
  destruct (setter_or_not c) as [[v ->]|Hno].
  { simpl. split.
    - apply set_maxListeners_roomForOne; [congruence | done].
    - apply (nonEmptyKeys_events w); [apply set_maxListeners_events | done]. }
  split.
  { unfold roomForOne. by rewrite afterSync_capacity. }
  destruct c; simpl.
  - by destruct (Hno maxListeners).
  - done.
  - done.
  - by apply addEventListener_nonEmpty.
  - by apply addEventListener_nonEmpty.
  - by apply addEventListener_nonEmpty.
  - by apply addEventListener_nonEmpty.
  - by apply addEventListener_nonEmpty.
  - by rewrite listenerCount_frame.
  - by rewrite listeners_frame.
  - by rewrite rawListeners_frame.
  - by apply removeListener_nonEmpty.
  - by apply removeListener_nonEmpty.
  - by apply removeAllListeners_nonEmpty.
Qed.

Lemma emit_nonEmpty behaviour eventName args w :
  nestedAll behaviour (λ c, c ≠ Sync.SetMaxListeners (VNumber (Int 0))) →
  roomForOne w ∧ nonEmptyKeys w →
  roomForOne (emit behaviour eventName args w).2
  ∧ nonEmptyKeys (emit behaviour eventName args w).2.
Proof.
  intros Hnested Hw.
  destruct (string_or_not eventName) as [[s ->]|Hno];
    [|by rewrite emit_not_string].
  apply (preserves_emit behaviour
           (λ w, roomForOne w ∧ nonEmptyKeys w) s); [| | | |done].
  - by intros f a w'.
  - intros index b arr w' [Hcap Hinv] Hk. split; [done|].
    intros k l. fields. intros Hl.
    apply lookup_insert_Some in Hl as [[_ <-]|[_ Hl]]; [|by apply (Hinv k)].
    intros Hnil. apply (f_equal length) in Hnil.
    rewrite length_alter in Hnil. apply (Hinv _ _ Hk).
    by destruct arr.
  - intros f a c Hc w' Hw'. apply afterSync_nonEmpty; [|done].
    by apply (Hnested f a).
  - intros index w' [Hcap Hinv]. split.
    + unfold roomForOne.
      by rewrite (keeps_removeEventListener (λ w, maxListeners_ (this w))).
    + by apply removeEventListener_nonEmpty.
Qed.

(** X19.  In an emitter whose capacity is at least 1 and that has no key
    without records, no call of a public method, whether it returns or
    throws, leaves a key without records.  The calls that listeners make
    while [emit] runs are calls like any other: none of them is to set the
    capacity to 0. *)
Lemma call_keeps_nonEmptyKeys behaviour c w :
  nestedAll behaviour (λ c, c ≠ Sync.SetMaxListeners (VNumber (Int 0))) →
  (∀ z, maxListeners_ (this w) = Some (Finite z) → 1 <= z) →
  nonEmptyKeys w → nonEmptyKeys (after behaviour c w).
Proof.
  intros Hnested Hcap Hinv.
  destruct (after_cases behaviour c) as [(e & args & ->)|[c' Hc']].
  - simpl. by apply emit_nonEmpty.
  - rewrite Hc'. destruct (setter_or_not c') as [[v ->]|Hno].
    + simpl. apply (nonEmptyKeys_events w); [apply set_maxListeners_events|done].
    + by apply afterSync_nonEmpty.
Qed.

(** A fresh emitter has no key at all. *)
Lemma new_nonEmptyKeys v w : new v = (Normal tt, w) → nonEmptyKeys w.
Proof.
  intros Hnew k l.
  pose proof (set_maxListeners_events v blank) as Hev.
  unfold new in Hnew. rewrite Hnew in Hev. simpl in Hev. rewrite Hev.
  simpl. by rewrite lookup_empty.
Qed.

(** The constructor and the setter accept 0. *)
Lemma new_zero :
  (new (VNumber (Int 0))).1 = Normal tt
  ∧ maxListeners_ (this (new (VNumber (Int 0))).2) = Some (Finite 0).
Proof. done. Qed.

(** ** Scenarios *)

(** Capacity 2: the same function registered twice for 'test' counts twice,
    a third registration throws, and the count is still 2. *)
Example scenario_capacity_two :
  let test := VString (str "test") in
  let w := runAll [AddListener test (VFunction 1); AddListener test (VFunction 1)]
             (new (VNumber (Int 2))).2 in
  let r := addListener test (VFunction 1) w in
  (listenerCount test (VFunction 1) w).1 = Normal 2
  ∧ r.1 = Throw (Error "Memory leak detected")
  ∧ (listenerCount test (VFunction 1) r.2).1 = Normal 2.
Proof. vm_compute. done. Qed.

(** A one-shot listener and a permanent one: after one [emit] only the
    permanent one is left. *)
Example scenario_once_and_permanent :
  let x := VString (str "x") in
  let w := runAll [Once x (VFunction 1); On x (VFunction 2)]
             (new VUndefined).2 in
  let r := emit sample x [] w in
  r.1 = Normal true
  ∧ (listeners x r.2).1 = Normal [2%nat]
  ∧ (rawListeners x r.2).1 = Normal [2%nat]
  ∧ (listenerCount x VUndefined r.2).1 = Normal 1.
Proof. vm_compute. done. Qed.

(** The arrangement of the repository's test: one-shot, permanent, one-shot.
    The one-shot records are apart, and one [emit] removes both. *)
Example scenario_once_apart :
  let test := VString (str "test") in
  let w := runAll [On test (VFunction 1); Once test (VFunction 2);
                   PrependOnceListener test (VFunction 3)]
             (new VUndefined).2 in
  let r := emit sample test [VString (str "arg")] w in
  (rawListeners test w).1 = Normal [3; 1; 2]%nat
  ∧ r.1 = Normal true
  ∧ (rawListeners test r.2).1 = Normal [1%nat].
Proof. vm_compute. done. Qed.

(** A listener whose promise is rejected does not stop the others, and
    [emit] returns true. *)
Example scenario_rejected_promise :
  let x := VString (str "x") in
  let w := runAll [On x (VFunction 7); On x (VFunction 3)]
             (new VUndefined).2 in
  let r := emit sample x [VNull] w in
  r.1 = Normal true ∧ calls r.2 = [(7%nat, [VNull]); (3%nat, [VNull])].
Proof. vm_compute. done. Qed.

(** The setter on an emitter with two listeners for one event: 1 is
    refused and the capacity stays 10; undefined sets the default. *)
Example scenario_lower_capacity :
  let test := VString (str "test") in
  let w := runAll [AddListener test (VFunction 1); On test (VFunction 1)]
             (new VUndefined).2 in
  set_maxListeners (VNumber (Int 1)) w
    = (Throw (Error "Memory leak detected"), w)
  ∧ maxListeners_ (this w) = Some (Finite 10)
  ∧ (set_maxListeners (VNumber (Int 2)) w).1 = Normal tt
  ∧ maxListeners_
      (this (set_maxListeners VUndefined
               (set_maxListeners (VNumber (Int 2)) w).2).2)
    = Some (Finite 10).
Proof. vm_compute. done. Qed.

(** A listener that removes itself while it is the only one: the key is
    gone when [emit] comes back to it after the listeners have run, and the
    promise of [emit] is rejected with a [TypeError]. *)
Example scenario_listener_removes_itself :
  let x := VString (str "x") in
  let w := runAll [On x (VFunction 22)] (new VUndefined).2 in
  let r := emit meddling x [] w in
  r.1 = Throw (TypeError "Cannot read properties of undefined")
  ∧ calls r.2 = [(22%nat, [])]
  ∧ events_ (this r.2) !! str "x" = None.
Proof. vm_compute. done. Qed.

(** A listener that removes itself while others follow: the record after
    it slides into its place and its listener is not called. *)
Example scenario_listener_removes_itself_first :
  let x := VString (str "x") in
  let w := runAll [On x (VFunction 22); On x (VFunction 2); On x (VFunction 3)]
             (new VUndefined).2 in
  let r := emit meddling x [] w in
  r.1 = Normal true
  ∧ calls r.2 = [(22%nat, []); (3%nat, [])]
  ∧ (rawListeners x r.2).1 = Normal [2; 3]%nat.
Proof. vm_compute. done. Qed.

(** A listener registered with [on] that marks its record one-shot is
    removed by the [emit] that called it. *)
Example scenario_listener_marks_itself_once :
  let x := VString (str "x") in
  let w := runAll [On x (VFunction 21); On x (VFunction 2)]
             (new VUndefined).2 in
  let r := emit meddling x [] w in
  (listeners x w).1 = Normal [21; 2]%nat
  ∧ r.1 = Normal true
  ∧ calls r.2 = [(21%nat, []); (2%nat, [])]
  ∧ (listeners x r.2).1 = Normal [2%nat].
Proof. vm_compute. done. Qed.

(** A listener that puts another function in its own place: the record
    stays where it is, and from then on it is the other function that is
    listed, called and removed. *)
Example scenario_listener_replaces_itself :
  let x := VString (str "x") in
  let w := runAll [On x (VFunction 25); On x (VFunction 2)]
             (new VUndefined).2 in
  let r := emit meddling x [] w in
  r.1 = Normal true
  ∧ calls r.2 = [(25%nat, []); (2%nat, [])]
  ∧ (rawListeners x r.2).1 = Normal [1; 2]%nat
  ∧ removeListener x (VFunction 25) r.2 = (Normal tt, r.2)
  ∧ calls (emit meddling x [] r.2).2
    = [(25%nat, []); (2%nat, []); (1%nat, []); (2%nat, [])].
Proof. vm_compute. done. Qed.

(** Listeners that register for another event and that set the capacity:
    after [emit('x')] the event 'y' has a listener and the capacity is 5. *)
Example scenario_listeners_call_the_emitter :
  let x := VString (str "x") in
  let w := runAll [On x (VFunction 23); On x (VFunction 24)]
             (new VUndefined).2 in
  let r := emit meddling x [] w in
  r.1 = Normal true
  ∧ (rawListeners (VString (str "y")) w).1 = Normal []
  ∧ (rawListeners (VString (str "y")) r.2).1 = Normal [1%nat]
  ∧ maxListeners_ (this w) = Some (Finite 10)
  ∧ maxListeners_ (this r.2) = Some (Finite 5).
Proof. vm_compute. done. Qed.

(** ** Further properties of the methods *)

(** *** What the queries return *)

Lemma sameListener_map f arr :
  length (List.filter (sameListener f) arr)
  = length (List.filter (λ g, bool_decide (g = f)) (map listener arr)).
Proof.
  induction arr as [|e arr IH]; simpl; [done|].
  unfold sameListener at 1. case_bool_decide; simpl; by rewrite IH.
Qed.

Lemma permanent_sublist arr :
  map listener (permanent arr) `sublist_of` map listener arr.
Proof.
  unfold permanent. induction arr as [|e arr IH]; simpl; [constructor|].
  destruct (isOnce e); simpl; [by apply sublist_cons | by apply sublist_skip].
Qed.

(** X1.  The four queries on one event agree with each other.  For an
    accepted name that is a key of the emitter or is not inherited from the
    prototype, [rawListeners] returns some list [raw] of functions;
    [listenerCount] without a function returns the length of [raw];
    [listenerCount] with a function returns the number of times it occurs in
    [raw]; and [listeners] returns a sublist of [raw], in the same order.
    When the name is not a key, [raw] is empty. *)
Theorem queries_agree (w : World) (s : jsstring) :
  validName s →
  notInherited w s →
  ∃ raw,
    (rawListeners (VString s) w).1 = Normal raw
    ∧ (events_ (this w) !! s = None → raw = [])
    ∧ (listenerCount (VString s) VUndefined w).1
      = Normal (Z.of_nat (length raw))
    ∧ (∀ f, (listenerCount (VString s) (VFunction f) w).1
            = Normal (Z.of_nat
                        (length (List.filter (λ g, bool_decide (g = f)) raw))))
    ∧ ∃ perm, (listeners (VString s) w).1 = Normal perm
              ∧ perm `sublist_of` raw.
Proof.
  intros Hs Hni. exists (map listener (held w s)).
  rewrite rawListeners_eval, listeners_eval by done.
  destruct (listenerCount_eval s w Hs Hni) as [-> Hf].
  split_and!; simpl.
  - done.
  - intros Hk. by rewrite (held_absent _ _ Hk).
  - by rewrite length_map.
  - intros f. by rewrite Hf, sameListener_map.
  - eexists. split; [done|]. apply permanent_sublist.
Qed.

Lemma queries_agree_witness :
  ∃ raw,
    (rawListeners (VString (str "x"))
       (runAll [Once (VString (str "x")) (VFunction 1);
                On (VString (str "x")) (VFunction 2)] (new VUndefined).2)).1
    = Normal raw.
Proof.
  destruct (queries_agree
              (runAll [Once (VString (str "x")) (VFunction 1);
                       On (VString (str "x")) (VFunction 2)] (new VUndefined).2)
              (str "x")) as (raw & Hraw & _).
  - unfold validName. vm_compute. discriminate.
  - right. vm_compute. reflexivity.
  - by exists raw.
Defined.

(** *** Arguments that are refused *)

Lemma checkEventName_invalid v w :
  ¬ acceptedName v →
  checkEventName v w = (Throw (TypeError "Invalid eventName"), w).
Proof.
  intros Hno. destruct v as [| | | |s| |]; try done. simpl.
  case_bool_decide as Hs; [done|]. exfalso. apply Hno. by exists s.
Qed.

(** X2.  A first argument that is not a string, or is a string that is empty
    or all white space, makes every method that takes an event name throw
    [TypeError 'Invalid eventName'] (for [emit]: reject its promise with it),
    whatever the other arguments are, and leaves the emitter as it was.  The
    one exception is [removeAllListeners], for which undefined means all
    events. *)
Theorem invalid_eventName_rejected
    (behaviour : nat → list value → script)
    (eventName listener : value) (args : list value) (w : World) :
  ¬ acceptedName eventName →
  (∀ register, register ∈ registrations →
     register eventName listener w
     = (Throw (TypeError "Invalid eventName"), w))
  ∧ removeListener eventName listener w
    = (Throw (TypeError "Invalid eventName"), w)
  ∧ off eventName listener w = (Throw (TypeError "Invalid eventName"), w)
  ∧ listenerCount eventName listener w
    = (Throw (TypeError "Invalid eventName"), w)
  ∧ listeners eventName w = (Throw (TypeError "Invalid eventName"), w)
  ∧ rawListeners eventName w = (Throw (TypeError "Invalid eventName"), w)
  ∧ emit behaviour eventName args w
    = (Throw (TypeError "Invalid eventName"), w)
  ∧ (eventName ≠ VUndefined →
     removeAllListeners eventName w
     = (Throw (TypeError "Invalid eventName"), w)).
Proof.
  intros Hno. pose proof (checkEventName_invalid eventName w Hno) as Hc.
  split_and!.
  - intros register Hreg.
    apply registrations_inv in Hreg as (isPrepend & isOnce & ->).
    unfold addEventListener. by rewrite (bind_throw _ _ _ _ _ Hc).
  - unfold removeListener. by rewrite (bind_throw _ _ _ _ _ Hc).
  - unfold off, removeListener. by rewrite (bind_throw _ _ _ _ _ Hc).
  - unfold listenerCount. by rewrite (bind_throw _ _ _ _ _ Hc).
  - unfold listeners. by rewrite (bind_throw _ _ _ _ _ Hc).
  - unfold rawListeners. by rewrite (bind_throw _ _ _ _ _ Hc).
  - unfold emit. by rewrite (bind_throw _ _ _ _ _ Hc).
  - intros Hu. unfold removeAllListeners.
    destruct eventName; try done; by rewrite (bind_throw _ _ _ _ _ Hc).
Qed.

Lemma invalid_eventName_rejected_witness :
  let w := runAll [On (VString (str "x")) (VFunction 1)] (new VUndefined).2 in
  emit sample (VString (str "  ")) [VNull] w
  = (Throw (TypeError "Invalid eventName"), w).
Proof.
  intros w.
  apply (invalid_eventName_rejected sample (VString (str "  ")) VUndefined
           [VNull] w).
  intros (s & [= <-] & Hs). apply Hs. vm_compute. reflexivity.
Defined.

(** X3.  With an accepted event name, a second argument that is not a
    function makes the five registration methods, [removeListener] and [off]
    throw [TypeError 'Invalid listener'] and change nothing; [listenerCount]
    does the same unless the second argument is undefined. *)
Theorem invalid_listener_rejected
    (eventName listener : value) (w : World) :
  acceptedName eventName →
  (∀ f, listener ≠ VFunction f) →
  (∀ register, register ∈ registrations →
     register eventName listener w
     = (Throw (TypeError "Invalid listener"), w))
  ∧ removeListener eventName listener w
    = (Throw (TypeError "Invalid listener"), w)
  ∧ off eventName listener w = (Throw (TypeError "Invalid listener"), w)
  ∧ (listener ≠ VUndefined →
     listenerCount eventName listener w
     = (Throw (TypeError "Invalid listener"), w)).
Proof.
  intros (s & -> & Hs) Hl.
  pose proof (checkEventName_valid s w Hs) as Hc.
  assert (checkListener listener w = (Throw (TypeError "Invalid listener"), w))
    as Hcl.
  { destruct listener as [| | | | |f|]; try done. by destruct (Hl f). }
  split_and!.
  - intros register Hreg.
    apply registrations_inv in Hreg as (isPrepend & isOnce & ->).
    unfold addEventListener. rewrite (bind_normal _ _ _ _ _ Hc).
    by rewrite (bind_throw _ _ _ _ _ Hcl).
  - unfold removeListener. rewrite (bind_normal _ _ _ _ _ Hc).
    by rewrite (bind_throw _ _ _ _ _ Hcl).
  - unfold off, removeListener. rewrite (bind_normal _ _ _ _ _ Hc).
    by rewrite (bind_throw _ _ _ _ _ Hcl).
  - intros Hu. unfold listenerCount. rewrite (bind_normal _ _ _ _ _ Hc).
    destruct listener as [| | | | |f|]; try done.
Qed.

Lemma invalid_listener_rejected_witness :
  removeListener (VString (str "x")) VNull (new VUndefined).2
  = (Throw (TypeError "Invalid listener"), (new VUndefined).2).
Proof.
  apply (invalid_listener_rejected (VString (str "x")) VNull
           (new VUndefined).2).
  - exists (str "x"). split; [reflexivity|]. unfold validName. vm_compute.
    discriminate.
  - discriminate.
Defined.

(** *** What a method leaves alone *)

Lemma emit_capacity behaviour eventName args w :
  nestedAll behaviour (λ c, ∀ v, c ≠ Sync.SetMaxListeners v) →
  maxListeners_ (this (emit behaviour eventName args w).2)
  = maxListeners_ (this w).
Proof.
  intros Hnested.
  destruct (string_or_not eventName) as [[s ->]|Hno];
    [|by rewrite emit_not_string].
  apply (preserves_emit behaviour
           (λ w', maxListeners_ (this w') = maxListeners_ (this w)) s);
    [| | | |done].
  - by intros f a w'.
  - by intros index b arr w'.
  - intros f a c Hc w' Hw'. rewrite afterSync_capacity; [done|].
    by apply (Hnested f a).
  - intros index w' Hw'.
    by rewrite (keeps_removeEventListener (λ w, maxListeners_ (this w))).
Qed.

(** X4.  The stored capacity is changed by the [maxListeners] setter and by
    nothing else: after any other call of a public method, with whatever
    arguments and whether it returns or throws, the capacity is what it
    was.  The calls that listeners make while [emit] runs are calls like any
    other: none of them is to the setter. *)
Theorem capacity_changed_only_by_setter
    (behaviour : nat → list value → script) (c : call) (w : World) :
  nestedAll behaviour (λ c, ∀ v, c ≠ Sync.SetMaxListeners v) →
  (∀ v, c ≠ SetMaxListeners v) →
  maxListeners_ (this (after behaviour c w))
  = maxListeners_ (this w).
Proof.
  intros Hnested Hc.
  destruct c; simpl; try by destruct (Hc maxListeners).
  - done.
  - done.
  - by apply emit_capacity.
  - by apply (keeps_addEventListener (λ w, maxListeners_ (this w))).
  - by apply (keeps_addEventListener (λ w, maxListeners_ (this w))).
  - by apply (keeps_addEventListener (λ w, maxListeners_ (this w))).
  - by apply (keeps_addEventListener (λ w, maxListeners_ (this w))).
  - by apply (keeps_addEventListener (λ w, maxListeners_ (this w))).
  - by rewrite listenerCount_frame.
  - by rewrite listeners_frame.
  - by rewrite rawListeners_frame.
  - by apply (keeps_removeListener (λ w, maxListeners_ (this w))).
  - by apply (keeps_removeListener (λ w, maxListeners_ (this w))).
  - by apply (keeps_removeAllListeners (λ w, maxListeners_ (this w))).
Qed.

Lemma sample_quiet : quiet sample.
Proof.
  intros f args. unfold sample.
  by destruct (f =? 13)%nat, (f =? 7)%nat.
Qed.

Lemma quiet_nestedAll behaviour Q : quiet behaviour → nestedAll behaviour Q.
Proof.
  intros Hq f args c Hc. destruct (Hq f args) as (_ & _ & Hn).
  rewrite Hn in Hc.
  by apply elem_of_nil in Hc.
Qed.

Lemma capacity_changed_only_by_setter_witness :
  let w := runAll [Once (VString (str "x")) (VFunction 1)]
             (new (VNumber (Int 3))).2 in
  maxListeners_ (this (after sample (Emit (VString (str "x")) []) w))
  = maxListeners_ (this w).
Proof.
  intros w.
  apply (capacity_changed_only_by_setter sample (Emit (VString (str "x")) []) w).
  - apply quiet_nestedAll, sample_quiet.
  - discriminate.
Defined.

(** X5.  Listeners are called by [emit] and by nothing else: after any
    other call of a public method, with whatever arguments and whether it
    returns or throws, no call of a listener has been made.  In particular
    registering or removing a listener does not run it. *)
Theorem listeners_called_only_by_emit
    (behaviour : nat → list value → script) (c : call) (w : World) :
  (∀ eventName args, c ≠ Emit eventName args) →
  calls (after behaviour c w) = calls w.
Proof.
  intros Hc.
  destruct c; simpl; try by destruct (Hc eventName args).
  - apply set_maxListeners_calls.
  - done.
  - done.
  - by apply (keeps_addEventListener calls).
  - by apply (keeps_addEventListener calls).
  - by apply (keeps_addEventListener calls).
  - by apply (keeps_addEventListener calls).
  - by apply (keeps_addEventListener calls).
  - by rewrite listenerCount_frame.
  - by rewrite listeners_frame.
  - by rewrite rawListeners_frame.
  - by apply (keeps_removeListener calls).
  - by apply (keeps_removeListener calls).
  - by apply (keeps_removeAllListeners calls).
Qed.

Lemma listeners_called_only_by_emit_witness :
  calls (after sample (Once (VString (str "x")) (VFunction 13))
           (new VUndefined).2)
  = calls (new VUndefined).2.
Proof.
  apply (listeners_called_only_by_emit sample
           (Once (VString (str "x")) (VFunction 13)) (new VUndefined).2).
  discriminate.
Defined.

(** *** Emission, in full *)

Lemma first_thrower behaviour arr args :
  noneThrows behaviour arr args
  ∨ ∃ pre event post reason,
      arr = pre ++ event :: post
      ∧ noneThrows behaviour pre args
      ∧ outcome (behaviour (listener event) args) = Throws reason.
Proof.
  induction arr as [|e arr IH].
  - left. intros e r He. by apply elem_of_nil in He.
  - destruct (outcome (behaviour (listener e) args)) as [|r|r] eqn:E.
    + destruct IH as [Hno|(pre & ev & post & reason & -> & Hpre & Hev)].
      * left. intros e' r' He'. apply elem_of_cons in He' as [->|He'].
        -- by rewrite E.
        -- by apply Hno.
      * right. exists (e :: pre), ev, post, reason. split_and!; [done| |done].
        intros e' r' He'. apply elem_of_cons in He' as [->|He'].
        -- by rewrite E.
        -- by apply Hpre.
    + destruct IH as [Hno|(pre & ev & post & reason & -> & Hpre & Hev)].
      * left. intros e' r' He'. apply elem_of_cons in He' as [->|He'].
        -- by rewrite E.
        -- by apply Hno.
      * right. exists (e :: pre), ev, post, reason. split_and!; [done| |done].
        intros e' r' He'. apply elem_of_cons in He' as [->|He'].
        -- by rewrite E.
        -- by apply Hpre.
    + right. exists [], e, arr, r. split_and!; [done| |done].
      intros e' r' He'. by apply elem_of_nil in He'.
Qed.

Lemma quiet_noneCalls behaviour arr args :
  quiet behaviour → noneCalls behaviour arr args.
Proof. intros Hq e _. by destruct (Hq (listener e) args) as (? & ? & ?). Qed.

Lemma quiet_noneWrites behaviour arr args :
  quiet behaviour → noneWrites behaviour arr args.
Proof. intros Hq e _. by destruct (Hq (listener e) args) as (? & ? & ?). Qed.

(** [emit] on a key whose array is empty returns true and does nothing. *)
Lemma emit_empty_key behaviour s args w :
  validName s → events_ (this w) !! s = Some [] →
  emit behaviour (VString s) args w = (Normal true, w).
Proof.
  intros Hs Hk. rewrite emit_eval by done.
  rewrite (getProperty_own _ _ _ Hk). simpl.
  cbv [mret M_ret]. by rewrite (getProperty_own _ _ _ Hk).
Qed.



(** What [emit] leaves of the emitter when the listeners leave it alone:
    either nothing has changed, or the array of the event, which no listener
    made throw, has been swept. *)
Lemma emit_outcome behaviour s args w :
  quiet behaviour →
  validName s →
  this (emit behaviour (VString s) args w).2 = this w
  ∨ ∃ arr,
      events_ (this w) !! s = Some arr ∧ arr ≠ []
      ∧ noneThrows behaviour arr args
      ∧ emit behaviour (VString s) args w
        = (Normal true,
           withEvents (stored s (sweep arr) (events_ (this w)))
             (withCalls (map (λ event, (listener event, args)) arr) w)).
Proof.
  intros Hq Hs. destruct (events_ (this w) !! s) as [arr|] eqn:Hk.
  - destruct (first_thrower behaviour arr args)
      as [Hno|(pre & ev & post & reason & -> & Hpre & Hev)].
    + destruct arr as [|e arr].
      * left. by rewrite emit_empty_key.
      * right. exists (e :: arr). split_and!; try done.
        rewrite (emit_known behaviour s args w (e :: arr));
          [|done|done|done|done|by apply quiet_noneCalls].
        by rewrite (written_quiet behaviour args (e :: arr))
          by by apply quiet_noneWrites.
    + left.
      rewrite (emit_throws behaviour s args w pre ev post reason);
        [|done|done|done|by apply quiet_noneCalls|done].
      rewrite (written_quiet behaviour args (pre ++ [ev]))
        by by apply quiet_noneWrites.
      rewrite <- app_assoc. simpl. rewrite insert_id by done.
      fields. by destruct w as [[??]?].
  - left. destruct (notInherited_dec w s) as [Hni|(_ & v & Hv)].
    + by rewrite emit_unknown by eauto using notInherited_absent.
    + by rewrite (emit_inherited behaviour s args w v).
Qed.

Lemma sweep_length arr : (length (sweep arr) ≤ length arr)%nat.
Proof.
  induction arr as [arr IH] using (induction_ltof1 _ (@length event)).
  unfold ltof in IH.
  destruct arr as [|[[] f] rest]; [done| |].
  - destruct rest as [|e' rest']; [simpl; lia|].
    cbn [sweep isOnce length]. specialize (IH rest'). simpl in IH. lia.
  - cbn [sweep isOnce length]. specialize (IH rest). simpl in IH. lia.
Qed.


Lemma held_after_stored s arr w w' k :
  held (withEvents (stored s arr (events_ (this w))) w') k
  = if decide (k = s) then arr else held w k.
Proof.
  unfold held. fields. case_decide as Hk.
  - subst. rewrite stored_lookup. by destruct arr.
  - unfold stored. destruct arr.
    + by rewrite lookup_delete_ne.
    + by rewrite lookup_insert_ne.
Qed.

Lemma held_same_this w w' k : this w' = this w → held w' k = held w k.
Proof. unfold held. by intros ->. Qed.

Lemma listeners_result eventName w w' :
  (∀ s, eventName = VString s → plainName s) →
  (∀ k, permanent (held w' k) = permanent (held w k)) →
  (listeners eventName w').1 = (listeners eventName w).1.
Proof.
  intros Hp H. destruct eventName as [| | | |s| |]; try done.
  destruct (decide (trim s = [])) as [Hs|Hs].
  - unfold listeners, checkEventName.
    by rewrite (bool_decide_eq_true_2 _ Hs).
  - rewrite !listeners_eval by (done || right; by apply Hp). simpl.
    by rewrite H.
Qed.

(** X7.  [emit] never removes or reorders a listener that was not
    registered as one-shot, as long as the listeners leave the emitter and
    their records alone: whatever event is emitted, with whatever arguments,
    and whether [emit] returns or throws, [listeners] gives afterwards, for
    every event name that is not inherited from the prototype, what it gave
    before. *)
Theorem emit_keeps_listeners
    (behaviour : nat → list value → script)
    (emitted queried : value) (args : list value) (w : World) :
  quiet behaviour →
  (∀ s, queried = VString s → plainName s) →
  (listeners queried (emit behaviour emitted args w).2).1
  = (listeners queried w).1.
Proof.
  intros Hq Hp. apply listeners_result; [done|]. intros k.
  destruct (string_or_not emitted) as [[s ->]|Hno];
    [|by rewrite emit_not_string].
  destruct (decide (validName s)) as [Hs|Hs]; cycle 1.
  { unfold emit, checkEventName. cbv [mbind M_bind throw].
    by rewrite bool_decide_eq_true_2 by (by apply dec_stable). }
  destruct (emit_outcome behaviour s args w Hq Hs)
    as [Hsame|(arr & Hk & Hne & Hno & ->)].
  - by rewrite (held_same_this _ _ _ Hsame).
  - fields. rewrite held_after_stored. case_decide as Hks.
    + subst. rewrite (held_lookup _ _ _ Hk). apply sweep_keeps_permanent.
    + unfold held. by fields.
Qed.

Lemma emit_keeps_listeners_witness :
  let x := VString (str "x") in
  let w := runAll [Once x (VFunction 1); On x (VFunction 2)]
             (new VUndefined).2 in
  (listeners x (emit sample x [] w).2).1 = (listeners x w).1.
Proof.
  intros x w. apply (emit_keeps_listeners sample x x [] w).
  - intros f args. unfold sample. by destruct (f =? 13)%nat, (f =? 7)%nat.
  - intros s [= <-]. vm_compute. reflexivity.
Defined.





(** *** The capacity is respected *)

Lemma withinCapacity_shrink w w' :
  maxListeners_ (this w') = maxListeners_ (this w) →
  (∀ k, (length (held w' k) ≤ length (held w k))%nat) →
  withinCapacity w → withinCapacity w'.
Proof.
  intros Hmax Hlen (m & Hm & Hfit). exists m. split; [congruence|].
  intros k. apply (fits_mono (Z.of_nat (length (held w k)))); [|done].
  specialize (Hlen k). lia.
Qed.

Lemma withinCapacity_setter v w :
  withinCapacity w → withinCapacity (set_maxListeners v w).2.
Proof.
  intros Hw.
  destruct (set_maxListeners_cases v w) as [[e ->]|(c & Hc & Hfull & ->)];
    [done|].
  exists c. split; [done|]. intros k. unfold held. fields.
  destruct (events_ (this w) !! k) as [arr|] eqn:Hk; simpl.
  - destruct c as [z|]; [|done]. simpl.
    destruct (decide (Z.of_nat (length arr) <= z)) as [|Hgt]; [done|].
    destruct Hfull. by exists k, arr.
  - by apply (acceptable_fits_zero (proposed v)).
Qed.

Lemma withinCapacity_register eventName listener isPrepend isOnce w :
  withinCapacity w →
  withinCapacity (addEventListener eventName listener isPrepend isOnce w).2.
Proof.
  intros (m & Hm & Hfit).
  destruct (addEventListener_rejects eventName listener isPrepend isOnce w)
    as [(s & f & -> & -> & Hs)| ->]; [|by exists m].
  destruct (notInherited_dec w (trim s)) as [Hni|(Hk & v & Hv)]; cycle 1.
  { rewrite (addEventListener_inherited s f isPrepend isOnce w v) by done.
    by exists m. }
  rewrite addEventListener_eval by done. rewrite Hm.
  destruct (exceeds _ _) eqn:E.
  - case_bool_decide as Hin; [by exists m|]. apply not_elem_of_dom in Hin.
    exists m. split; [done|]. intros k. unfold held. fields.
    destruct (decide (k = trim s)) as [->|Hne].
    + rewrite lookup_insert_eq. simpl.
      specialize (Hfit (trim s)). by rewrite (held_absent _ _ Hin) in Hfit.
    + rewrite lookup_insert_ne by done. apply Hfit.
  - apply exceeds_fits in E. exists m. split; [done|]. intros k.
    unfold held at 1. fields.
    destruct (decide (k = trim s)) as [->|Hne].
    + rewrite lookup_insert_eq. simpl.
      destruct isPrepend; simpl; [|rewrite length_app; simpl];
        (eapply fits_mono; [|exact E]); lia.
    + rewrite lookup_insert_ne by done. apply Hfit.
Qed.

Lemma removeEventListener_shrinks eventName index w k :
  (length (held (removeEventListener eventName index w).2 k)
   ≤ length (held w k))%nat.
Proof.
  destruct (events_ (this w) !! eventName) as [arr|] eqn:Hk.
  - rewrite (removeEventListener_splice _ _ arr) by done. fields.
    rewrite held_after_stored. case_decide as Hks; [|done]. subst.
    rewrite (held_lookup _ _ _ Hk). apply splice1_length.
  - by rewrite removeEventListener_absent.
Qed.

Lemma removeListener_shrinks eventName listener w k :
  (length (held (removeListener eventName listener w).2 k)
   ≤ length (held w k))%nat.
Proof.
  destruct (removeListener_rejects eventName listener w)
    as [(s & f & -> & -> & Hs)| ->]; [|done].
  rewrite removeListener_eval_any by done.
  destruct (getProperty (events_ (this w)) s) as [arr|v|]; [|done|done].
  simpl. destruct (-1 <? findIndex (sameListener f) arr); [|done].
  apply removeEventListener_shrinks.
Qed.

Lemma removeAllListeners_shrinks eventName w k :
  (length (held (removeAllListeners eventName w).2 k)
   ≤ length (held w k))%nat.
Proof.
  unfold held.
  destruct (removeAllListeners_events eventName w) as [->|[->|(s & _ & ->)]].
  - done.
  - rewrite lookup_empty. simpl. lia.
  - destruct (decide (k = s)) as [->|Hne].
    + rewrite lookup_delete_eq. simpl. lia.
    + by rewrite lookup_delete_ne.
Qed.

Lemma afterSync_withinCapacity c w :
  withinCapacity w → withinCapacity (afterSync c w).
Proof.
  intros Hw. destruct c; simpl.
  - by apply withinCapacity_setter.
  - done.
  - done.
  - by apply withinCapacity_register.
  - by apply withinCapacity_register.
  - by apply withinCapacity_register.
  - by apply withinCapacity_register.
  - by apply withinCapacity_register.
  - by rewrite listenerCount_frame.
  - by rewrite listeners_frame.
  - by rewrite rawListeners_frame.
  - apply (withinCapacity_shrink w); [|apply removeListener_shrinks|done].
    by apply (keeps_removeListener (λ w, maxListeners_ (this w))).
  - apply (withinCapacity_shrink w); [|apply removeListener_shrinks|done].
    by apply (keeps_removeListener (λ w, maxListeners_ (this w))).
  - apply (withinCapacity_shrink w); [|apply removeAllListeners_shrinks|done].
    by apply (keeps_removeAllListeners (λ w, maxListeners_ (this w))).
Qed.

Lemma emit_withinCapacity behaviour eventName args w :
  withinCapacity w → withinCapacity (emit behaviour eventName args w).2.
Proof.
  intros Hw.
  destruct (string_or_not eventName) as [[s ->]|Hno];
    [|by rewrite emit_not_string].
  apply (preserves_emit behaviour withinCapacity s); [| | | |done].
  - by intros f a w'.
  - intros index b arr w' Hw' Hk.
    apply (withinCapacity_shrink w'); [done| |done].
    intros k. unfold held at 1. fields.
    destruct (decide (k = s)) as [->|Hne].
    + rewrite lookup_insert_eq, (held_lookup _ _ _ Hk). simpl.
      by rewrite length_alter.
    + by rewrite lookup_insert_ne.
  - intros f a c _ w'. apply afterSync_withinCapacity.
  - intros index w' Hw'.
    apply (withinCapacity_shrink w'); [|apply removeEventListener_shrinks|done].
    by apply (keeps_removeEventListener (λ w, maxListeners_ (this w))).
Qed.

Lemma withinCapacity_call behaviour c w :
  withinCapacity w → withinCapacity (after behaviour c w).
Proof.
  intros Hw.
  destruct (after_cases behaviour c) as [(e & args & ->)|[c' ->]].
  - by apply emit_withinCapacity.
  - by apply afterSync_withinCapacity.
Qed.

(** X10.  In every state an emitter can be in, after it was constructed and
    used through any sequence of calls of its public methods, whether they
    returned or threw, a capacity is stored and no event holds more records
    than it allows. *)
Theorem reachable_within_capacity
    (behaviour : nat → list value → script) (w : World) :
  reachable behaviour w → withinCapacity w.
Proof.
  induction 1 as [v w Hnew|c w Hreach IH].
  - unfold new in Hnew.
    destruct (set_maxListeners_cases v blank)
      as [[e He]|(c & Hc & _ & Hset)]; [congruence|].
    rewrite Hset in Hnew. injection Hnew as <-.
    exists c. split; [done|]. intros k. unfold held, blank. fields.
    rewrite lookup_empty. simpl. by apply (acceptable_fits_zero (proposed v)).
  - by apply withinCapacity_call.
Qed.

Lemma reachable_within_capacity_witness :
  withinCapacity
    (after sample (Once (VString (str "x")) (VFunction 1))
       (new (VNumber (Int 1))).2).
Proof.
  apply (reachable_within_capacity sample).
  apply reachable_call.
  apply (reachable_new sample (VNumber (Int 1))). reflexivity.
Defined.

(** *** Where a registration puts the listener *)

Lemma addEventListener_held s f isPrepend isOnce w :
  validName s →
  (addEventListener (VString s) (VFunction f) isPrepend isOnce w).1
  = Normal tt →
  held (addEventListener (VString s) (VFunction f) isPrepend isOnce w).2
    (trim s)
  = if isPrepend then Event isOnce f :: held w (trim s)
    else held w (trim s) ++ [Event isOnce f].
Proof.
  intros Hs Hr.
  pose proof (addEventListener_success s f isPrepend isOnce w Hs Hr) as Hni.
  revert Hr. rewrite addEventListener_eval by done.
  destruct (exceeds _ _); [done|]. intros _. unfold held at 1. fields.
  by rewrite lookup_insert_eq.
Qed.

(** After a registration that succeeded the trimmed name is a key. *)
Lemma addEventListener_key s f isPrepend isOnce w :
  validName s →
  (addEventListener (VString s) (VFunction f) isPrepend isOnce w).1
  = Normal tt →
  is_Some (events_ (this (addEventListener (VString s) (VFunction f)
                            isPrepend isOnce w).2) !! trim s).
Proof.
  intros Hs Hr.
  pose proof (addEventListener_success s f isPrepend isOnce w Hs Hr) as Hni.
  revert Hr. rewrite addEventListener_eval by done.
  destruct (exceeds _ _); [done|]. intros _. fields.
  rewrite lookup_insert_eq. by eexists.
Qed.

Lemma permanent_app arr arr' :
  permanent (arr ++ arr') = permanent arr ++ permanent arr'.
Proof. apply List.filter_app. Qed.

(** X11.  Where a successful registration puts the function, as the queries
    on the trimmed name show it, for a name that is a key of the emitter or
    is not inherited from the prototype.  [addListener] and [on] put it last
    in [rawListeners] and last in [listeners]; [prependListener] puts it
    first in both; [once] puts it last in [rawListeners] and
    [prependOnceListener] first, and these two leave [listeners] as it was.
    The functions already registered keep their order. *)
Theorem registration_places (w : World) (s : jsstring) (f : nat) :
  validName s →
  notInherited w (trim s) →
  let name := VString (trim s) in
  ∃ raw perm,
    (rawListeners name w).1 = Normal raw
    ∧ (listeners name w).1 = Normal perm
    ∧ (∀ register, register ∈ [addListener; on] →
         let r := register (VString s) (VFunction f) w in
         r.1 = Normal tt →
         (rawListeners name r.2).1 = Normal (raw ++ [f])
         ∧ (listeners name r.2).1 = Normal (perm ++ [f]))
    ∧ (let r := prependListener (VString s) (VFunction f) w in
       r.1 = Normal tt →
       (rawListeners name r.2).1 = Normal (f :: raw)
       ∧ (listeners name r.2).1 = Normal (f :: perm))
    ∧ (let r := once (VString s) (VFunction f) w in
       r.1 = Normal tt →
       (rawListeners name r.2).1 = Normal (raw ++ [f])
       ∧ (listeners name r.2).1 = Normal perm)
    ∧ (let r := prependOnceListener (VString s) (VFunction f) w in
       r.1 = Normal tt →
       (rawListeners name r.2).1 = Normal (f :: raw)
       ∧ (listeners name r.2).1 = Normal perm).
Proof.
  intros Hs Hni name. subst name.
  pose proof (validName_trim s Hs) as Ht.
  exists (map listener (held w (trim s))),
    (map listener (permanent (held w (trim s)))).
  rewrite rawListeners_eval, listeners_eval by done.
  assert (∀ isPrepend isOnce,
            let r := addEventListener (VString s) (VFunction f)
                       isPrepend isOnce w in
            r.1 = Normal tt →
            (rawListeners (VString (trim s)) r.2).1
            = Normal (map listener
                        (if isPrepend then Event isOnce f :: held w (trim s)
                         else held w (trim s) ++ [Event isOnce f]))
            ∧ (listeners (VString (trim s)) r.2).1
              = Normal (map listener
                          (permanent
                             (if isPrepend
                              then Event isOnce f :: held w (trim s)
                              else held w (trim s) ++ [Event isOnce f]))))
    as Hall.
  { intros isPrepend isOnce r Hr. subst r.
    pose proof (addEventListener_key s f isPrepend isOnce w Hs Hr) as Hkey.
    rewrite rawListeners_eval, listeners_eval by (done || by left).
    by rewrite addEventListener_held. }
  split_and!; try done.
  - intros register Hreg r Hr. subst r.
    assert (register = addListener) as ->.
    { apply elem_of_cons in Hreg as [->|Hreg]; [done|].
      apply elem_of_cons in Hreg as [->|Hreg]; [done|].
      by apply elem_of_nil in Hreg. }
    unfold addListener in *. destruct (Hall false false Hr) as [-> ->].
    by rewrite permanent_app, !map_app.
  - intros r Hr. subst r. unfold prependListener in *.
    by destruct (Hall true false Hr) as [-> ->].
  - intros r Hr. subst r. unfold once in *.
    destruct (Hall false true Hr) as [-> ->].
    rewrite permanent_app, !map_app. simpl. by rewrite app_nil_r.
  - intros r Hr. subst r. unfold prependOnceListener in *.
    by destruct (Hall true true Hr) as [-> ->].
Qed.

Lemma registration_places_witness :
  ∃ raw perm,
    (rawListeners (VString (str "x"))
       (runAll [On (VString (str "x")) (VFunction 1)] (new VUndefined).2)).1
    = Normal raw
    ∧ (listeners (VString (str "x"))
         (runAll [On (VString (str "x")) (VFunction 1)] (new VUndefined).2)).1
      = Normal perm.
Proof.
  destruct (registration_places
              (runAll [On (VString (str "x")) (VFunction 1)] (new VUndefined).2)
              (str " x ") 2) as (raw & perm & Hraw & Hperm & _).
  - unfold validName. vm_compute. discriminate.
  - right. vm_compute. reflexivity.
  - by exists raw, perm.
Defined.

(** *** Registering and removing again *)

Lemma sameListener_yes isOnce f : sameListener f (Event isOnce f) = true.
Proof. unfold sameListener. by apply bool_decide_eq_true_2. Qed.

Lemma remove_inserted key f isOnce pre post w :
  events_ (this w) !! key ≠ Some [] →
  (∀ e, e ∈ pre → sameListener f e = false) →
  pre ++ post = held w key →
  (let index := findIndex (sameListener f) (pre ++ Event isOnce f :: post) in
   if -1 <? index then
     removeEventListener key index
       (withEvents (<[key := pre ++ Event isOnce f :: post]> (events_ (this w)))
          w)
   else
     (Normal tt,
      withEvents (<[key := pre ++ Event isOnce f :: post]> (events_ (this w)))
        w))
  = (Normal tt, w).
Proof.
  intros Hk Hpre Harr. cbn zeta.
  rewrite findIndex_first by (done || apply sameListener_yes).
  rewrite (proj2 (Z.ltb_lt _ _)) by lia.
  rewrite (removeEventListener_eval _ _ (pre ++ Event isOnce f :: post));
    [|fields; by rewrite lookup_insert_eq].
  rewrite delete_middle, Harr. fields. f_equal.
  rewrite withEvents_twice.
  assert (stored key (held w key)
            (<[key := pre ++ Event isOnce f :: post]> (events_ (this w)))
          = events_ (this w)) as ->; [|apply withEvents_id].
  unfold stored, held in *.
  destruct (events_ (this w) !! key) as [[|e l]|] eqn:E; simpl.
  - done.
  - rewrite insert_insert_eq. by apply insert_id.
  - rewrite delete_insert_eq. by apply delete_id.
Qed.

Lemma addEventListener_then_remove s f isPrepend isOnce w :
  validName s →
  events_ (this w) !! trim s ≠ Some [] →
  (isPrepend = true ∨ ∀ e, e ∈ held w (trim s) → listener e ≠ f) →
  (addEventListener (VString s) (VFunction f) isPrepend isOnce w).1
  = Normal tt →
  removeListener (VString (trim s)) (VFunction f)
    (addEventListener (VString s) (VFunction f) isPrepend isOnce w).2
  = (Normal tt, w).
Proof.
  intros Hs Hk Hcase Hr.
  pose proof (addEventListener_success s f isPrepend isOnce w Hs Hr) as Hni.
  revert Hr. rewrite addEventListener_eval by done.
  destruct (exceeds _ _); [done|]. intros _. cbn [snd].
  rewrite removeListener_eval;
    [|by apply validName_trim|left; fields; rewrite lookup_insert_eq; by eexists].
  fields. rewrite lookup_insert_eq.
  destruct isPrepend.
  - apply (remove_inserted (trim s) f isOnce [] (held w (trim s))); try done.
    intros e He. by apply elem_of_nil in He.
  - apply (remove_inserted (trim s) f isOnce (held w (trim s)) []); try done.
    + destruct Hcase as [|Hno]; [done|]. intros e He.
      unfold sameListener. apply bool_decide_eq_false_2. by apply Hno.
    + by rewrite app_nil_r.
Qed.

(** X12.  Registering a function and then removing it again, under the
    trimmed name, gives back the emitter as it was, provided the event did
    not have a key without records.  This holds for [prependListener] and
    [prependOnceListener] always, because the record just put first is the
    first one found; and for every registration method when the function
    was not registered for the event before. *)
Theorem register_then_remove (w : World) (s : jsstring) (f : nat) :
  validName s →
  events_ (this w) !! trim s ≠ Some [] →
  (∀ register, register ∈ [prependListener; prependOnceListener] →
     (register (VString s) (VFunction f) w).1 = Normal tt →
     removeListener (VString (trim s)) (VFunction f)
       (register (VString s) (VFunction f) w).2
     = (Normal tt, w))
  ∧ (∀ register, register ∈ registrations →
       (∀ e, e ∈ held w (trim s) → listener e ≠ f) →
       (register (VString s) (VFunction f) w).1 = Normal tt →
       removeListener (VString (trim s)) (VFunction f)
         (register (VString s) (VFunction f) w).2
       = (Normal tt, w)).
Proof.
  intros Hs Hk. split.
  - intros register Hreg Hr.
    apply elem_of_cons in Hreg as [->|Hreg];
      [|apply elem_of_cons in Hreg as [->|Hreg];
        [|by apply elem_of_nil in Hreg]];
      apply addEventListener_then_remove; try done; by left.
  - intros register Hreg Hno Hr.
    apply registrations_inv in Hreg as (isPrepend & isOnce & ->).
    apply addEventListener_then_remove; try done. by right.
Qed.

Lemma register_then_remove_witness :
  let x := VString (str "x") in
  let w := runAll [On x (VFunction 1); Once x (VFunction 1)]
             (new VUndefined).2 in
  removeListener x (VFunction 1) (prependListener x (VFunction 1) w).2
  = (Normal tt, w).
Proof.
  intros x w.
  destruct (register_then_remove w (str "x") 1) as [Hfirst _].
  - unfold validName. vm_compute. discriminate.
  - vm_compute. intros H. discriminate H.
  - apply Hfirst; [repeat constructor | vm_compute; reflexivity].
Defined.

(** *** One event at a time *)

Lemma addEventListener_other eventName listener isPrepend isOnce w k :
  (∀ s, eventName = VString s → k ≠ trim s) →
  events_ (this (addEventListener eventName listener isPrepend isOnce w).2) !! k
  = events_ (this w) !! k.
Proof.
  intros Hk.
  destruct (addEventListener_rejects eventName listener isPrepend isOnce w)
    as [(s & f & -> & -> & Hs)| ->]; [|done].
  specialize (Hk s eq_refl).
  destruct (notInherited_dec w (trim s)) as [Hni|(Hkey & v & Hv)]; cycle 1.
  { by rewrite (addEventListener_inherited s f isPrepend isOnce w v). }
  rewrite addEventListener_eval by done.
  destruct (exceeds _ _); [case_bool_decide; [done|]|]; fields;
    by rewrite lookup_insert_ne.
Qed.

Lemma stored_other s arr evs k : k ≠ s → stored s arr evs !! k = evs !! k.
Proof.
  intros Hk. unfold stored.
  destruct arr; [by rewrite lookup_delete_ne | by rewrite lookup_insert_ne].
Qed.

Lemma removeEventListener_other eventName index w k :
  k ≠ eventName →
  events_ (this (removeEventListener eventName index w).2) !! k
  = events_ (this w) !! k.
Proof.
  intros Hne. destruct (events_ (this w) !! eventName) as [arr|] eqn:Hk.
  - rewrite (removeEventListener_splice _ _ arr) by done. fields.
    by apply stored_other.
  - by rewrite removeEventListener_absent.
Qed.

Lemma removeListener_other eventName listener w k :
  eventName ≠ VString k →
  events_ (this (removeListener eventName listener w).2) !! k
  = events_ (this w) !! k.
Proof.
  intros Hk.
  destruct (removeListener_rejects eventName listener w)
    as [(s & f & -> & -> & Hs)| ->]; [|done].
  rewrite removeListener_eval_any by done.
  destruct (getProperty (events_ (this w)) s) as [arr|v|]; [|done|done].
  simpl. destruct (-1 <? findIndex (sameListener f) arr); [|done].
  apply removeEventListener_other. congruence.
Qed.

Lemma emit_other behaviour s args w k :
  k ≠ s →
  nestedAll behaviour
    (λ c, ∀ w', events_ (this (afterSync c w')) !! k = events_ (this w') !! k) →
  events_ (this (emit behaviour (VString s) args w).2) !! k
  = events_ (this w) !! k.
Proof.
  intros Hk Hnested.
  apply (preserves_emit behaviour
           (λ w', events_ (this w') !! k = events_ (this w) !! k) s);
    [| | | |done].
  - by intros f a w'.
  - intros index b arr w' Hw' _. fields. by rewrite lookup_insert_ne.
  - intros f a c Hc w' Hw'. by rewrite (Hnested f a c Hc).
  - intros index w' Hw'. by rewrite removeEventListener_other.
Qed.

Lemma removeAllListeners_other eventName w k :
  eventName ≠ VString k → eventName ≠ VUndefined →
  events_ (this (removeAllListeners eventName w).2) !! k
  = events_ (this w) !! k.
Proof.
  intros Hk Hu. destruct eventName as [| | | |s| |]; try done.
  unfold removeAllListeners, checkEventName.
  case_bool_decide as Hs; [done|].
  cbv [mbind M_bind mret M_ret getEvents setEvents].
  destruct (hasProperty _ _); [|done]. fields. apply lookup_delete_ne.
  congruence.
Qed.

(** X13.  A call about one event does not touch the others.  Whatever the
    arguments and whether the call returns or throws: a registration under a
    name leaves the array of every key other than the trimmed name as it
    was; [removeListener], [emit] and [removeAllListeners] with a name leave
    the array of every key other than that name as it was.  The calls that
    listeners make while [emit] runs are calls like any other: for [emit]
    this holds of a key that none of them touches. *)
Theorem other_events_untouched
    (behaviour : nat → list value → script)
    (s k : jsstring) (listener : value) (args : list value) (w : World) :
  (k ≠ trim s →
   ∀ register, register ∈ registrations →
     events_ (this (register (VString s) listener w).2) !! k
     = events_ (this w) !! k)
  ∧ (k ≠ s →
     events_ (this (removeListener (VString s) listener w).2) !! k
     = events_ (this w) !! k
     ∧ (nestedAll behaviour
          (λ c, ∀ w', events_ (this (afterSync c w')) !! k
                      = events_ (this w') !! k) →
        events_ (this (emit behaviour (VString s) args w).2) !! k
        = events_ (this w) !! k)
     ∧ events_ (this (removeAllListeners (VString s) w).2) !! k
       = events_ (this w) !! k).
Proof.
  split.
  - intros Hk register Hreg.
    apply registrations_inv in Hreg as (isPrepend & isOnce & ->).
    apply addEventListener_other. by intros ? [= <-].
  - intros Hk. split_and!.
    + apply removeListener_other. congruence.
    + intros Hnested. by apply emit_other.
    + apply removeAllListeners_other; congruence.
Qed.

(** *** Removing one listener *)

Lemma findIndex_split {A} (pred : A → bool) (l : list A) :
  (∀ x, x ∈ l → pred x = false)
  ∨ ∃ pre x post,
      l = pre ++ x :: post ∧ (∀ y, y ∈ pre → pred y = false) ∧ pred x = true.
Proof.
  induction l as [|x l IH].
  - left. intros y Hy. by apply elem_of_nil in Hy.
  - destruct (pred x) eqn:E.
    + right. exists [], x, l. split_and!; [done| |done].
      intros y Hy. by apply elem_of_nil in Hy.
    + destruct IH as [Hno|(pre & y & post & -> & Hpre & Hy)].
      * left. intros y Hy. apply elem_of_cons in Hy as [->|Hy]; [done|].
        by apply Hno.
      * right. exists (x :: pre), y, post. split_and!; [done| |done].
        intros z Hz. apply elem_of_cons in Hz as [->|Hz]; [done|].
        by apply Hpre.
Qed.

Lemma filter_none {A} (pred : A → bool) (l : list A) :
  (∀ x, x ∈ l → pred x = false) → List.filter pred l = [].
Proof.
  induction l as [|x l IH]; intros H; simpl; [done|].
  rewrite (H x) by constructor. apply IH. intros y Hy. apply H.
  by constructor.
Qed.

(** X14.  [removeListener] with an accepted name that is not inherited
    from the prototype and a function lowers the count of that function for
    the event by one, or leaves it at 0; the counts of all other functions
    for the event stay as they were. *)
Theorem removeListener_counts (w : World) (s : jsstring) (f : nat) :
  validName s →
  plainName s →
  let r := removeListener (VString s) (VFunction f) w in
  ∃ n : Z,
    (listenerCount (VString s) (VFunction f) w).1 = Normal n
    ∧ (listenerCount (VString s) (VFunction f) r.2).1
      = Normal (Z.max 0 (n - 1))
    ∧ ∀ g, g ≠ f →
        (listenerCount (VString s) (VFunction g) r.2).1
        = (listenerCount (VString s) (VFunction g) w).1.
Proof.
  intros Hs Hp r. subst r.
  assert (∀ w', (∀ g, listenerCount (VString s) (VFunction g) w'
                      = (Normal
                           (VNumber
                              (Int
                                 (Z.of_nat
                                    (length
                                       (List.filter (sameListener g)
                                          (held w' s)))))),
                         w'))) as Hcount'.
  { intros w'. by destruct (listenerCount_eval s w' Hs (or_intror Hp)). }
  eexists. split; [by rewrite Hcount'|].
  rewrite removeListener_eval by (done || by right).
  destruct (events_ (this w) !! s) as [arr|] eqn:Hk; cycle 1.
  { cbn [fst snd]. split; [|done]. rewrite !Hcount'. cbn [fst].
    rewrite (held_absent _ _ Hk). simpl. done. }
  cbn zeta.
  destruct (findIndex_split (sameListener f) arr)
    as [Hno|(pre & e & post & -> & Hpre & He)].
  - rewrite findIndex_none by done. change (-1 <? -1) with false.
    cbn [fst snd]. split; [|done]. rewrite Hcount'. cbn [fst].
    by rewrite (held_lookup _ _ _ Hk), filter_none.
  - rewrite findIndex_first by done.
    rewrite (proj2 (Z.ltb_lt _ _)) by lia.
    rewrite (removeEventListener_eval s _ (pre ++ e :: post)) by done.
    cbn [fst snd]. rewrite delete_middle. split.
    + rewrite Hcount'. cbn [fst]. rewrite held_after_stored, decide_True by done.
      rewrite (held_lookup _ _ _ Hk).
      rewrite !List.filter_app, !length_app. simpl. rewrite He. simpl.
      do 3 f_equal. lia.
    + intros g Hg. rewrite !Hcount'. cbn [fst].
      rewrite held_after_stored, decide_True by done.
      rewrite ?(held_lookup _ _ _ Hk).
      rewrite !List.filter_app, !length_app. simpl.
      assert (sameListener g e = false) as ->; [|done].
      unfold sameListener in *. apply bool_decide_eq_true_1 in He.
      apply bool_decide_eq_false_2. congruence.
Qed.

Lemma removeListener_counts_witness :
  let x := VString (str "x") in
  let w := runAll [On x (VFunction 1); On x (VFunction 2); Once x (VFunction 1)]
             (new VUndefined).2 in
  ∃ n : Z, (listenerCount x (VFunction 1) w).1 = Normal n
       ∧ (listenerCount x (VFunction 1)
            (removeListener x (VFunction 1) w).2).1
         = Normal (Z.max 0 (n - 1)).
Proof.
  intros x w.
  destruct (removeListener_counts w (str "x") 1) as (n & Hn & Hn' & _).
  - unfold validName. vm_compute. discriminate.
  - vm_compute. reflexivity.
  - exists n. split; [exact Hn | exact Hn'].
Defined.

(** *** Event names, clearing, construction *)

Lemma elem_of_objectKeys evs k : k ∈ objectKeys evs ↔ is_Some (evs !! k).
Proof.
  unfold objectKeys. rewrite list_elem_of_fmap. split.
  - intros ([k' arr] & -> & Hin). apply elem_of_map_to_list in Hin. by eexists.
  - intros [arr Hk]. exists (k, arr). split; [done|].
    by apply elem_of_map_to_list.
Qed.

(** X15.  [eventNames] returns each key of the event map once.  A name is
    in it exactly when the event has an array; and as long as no key is
    without records, exactly when [listenerCount] for the name is not 0,
    for a name that is a key of the emitter or is not inherited from the
    prototype. *)
Theorem eventNames_lists_keys (w : World) (s : jsstring) :
  validName s →
  notInherited w s →
  ∃ names,
    (eventNames w).1 = Normal names
    ∧ NoDup names
    ∧ (s ∈ names ↔ is_Some (events_ (this w) !! s))
    ∧ (nonEmptyKeys w →
       (s ∈ names ↔ (listenerCount (VString s) VUndefined w).1 ≠ Normal 0)).
Proof.
  intros Hs Hni. exists (objectKeys (events_ (this w))).
  split_and!.
  - done.
  - apply NoDup_fst_map_to_list.
  - apply elem_of_objectKeys.
  - intros Hinv. rewrite elem_of_objectKeys.
    destruct (listenerCount_eval s w Hs Hni) as [-> _]. cbn [fst].
    unfold held. destruct (events_ (this w) !! s) as [arr|] eqn:Hk; simpl.
    + split; [|by eexists]. intros _ [= Hlen].
      apply (Hinv _ _ Hk). destruct arr; [done|simpl in Hlen; lia].
    + split; [by intros [? ?]|]. intros H. by destruct H.
Qed.

Lemma eventNames_lists_keys_witness :
  ∃ names,
    (eventNames (runAll [On (VString (str "a")) (VFunction 1);
                         On (VString (str "b")) (VFunction 1)]
                   (new VUndefined).2)).1 = Normal names
    ∧ NoDup names.
Proof.
  destruct (eventNames_lists_keys
              (runAll [On (VString (str "a")) (VFunction 1);
                       On (VString (str "b")) (VFunction 1)]
                 (new VUndefined).2) (str "a")) as (names & Hn & Hd & _).
  - unfold validName. vm_compute. discriminate.
  - right. vm_compute. reflexivity.
  - exists names. split; [exact Hn | exact Hd].
Defined.

(** X16.  [removeAllListeners] never throws on undefined or on an accepted
    name, and never changes the capacity.  Without a name it leaves no event
    at all: [eventNames] is empty.  With a name it leaves that event without
    listeners: afterwards the name is not in [eventNames], and, for a name
    that is not inherited from the prototype, [rawListeners] for it is empty
    and [emit] on it returns false, calling nothing. *)
Theorem removeAllListeners_clears
    (behaviour : nat → list value → script)
    (s : jsstring) (args : list value) (w : World) :
  validName s →
  let all := removeAllListeners VUndefined w in
  let one := removeAllListeners (VString s) w in
  (all.1 = Normal tt
   ∧ maxListeners_ (this all.2) = maxListeners_ (this w)
   ∧ (eventNames all.2).1 = Normal []
   ∧ (plainName s →
      (rawListeners (VString s) all.2).1 = Normal []
      ∧ emit behaviour (VString s) args all.2 = (Normal false, all.2)))
  ∧ (one.1 = Normal tt
     ∧ maxListeners_ (this one.2) = maxListeners_ (this w)
     ∧ (∀ names, (eventNames one.2).1 = Normal names → s ∉ names)
     ∧ (plainName s →
        (rawListeners (VString s) one.2).1 = Normal []
        ∧ emit behaviour (VString s) args one.2 = (Normal false, one.2))).
Proof.
  intros Hs all one.
  assert (all = (Normal tt, withEvents ∅ w)) as -> by done.
  assert (one = (Normal tt, withEvents (delete s (events_ (this w))) w)) as ->.
  { subst one. unfold removeAllListeners.
    rewrite (bind_normal _ _ _ _ _ (checkEventName_valid s w Hs)).
    cbv [mbind M_bind mret M_ret getEvents setEvents hasProperty getProperty].
    destruct (events_ (this w) !! s) eqn:Hk; [done|].
    destruct (inherited s); cbn beta iota;
      by rewrite ?delete_id, withEvents_id by done. }
  cbn [fst snd]. split; split_and!; try done.
  - intros Hp. split.
    + rewrite rawListeners_eval by (done || by right). unfold held. fields.
      by rewrite lookup_empty.
    + apply emit_unknown; [done| |done]. fields. apply lookup_empty.
  - intros names [= <-]. fields. rewrite elem_of_objectKeys, lookup_delete_eq.
    by intros [? ?].
  - intros Hp. split.
    + rewrite rawListeners_eval by (done || by right). unfold held. fields.
      by rewrite lookup_delete_eq.
    + apply emit_unknown; [done| |done]. fields. apply lookup_delete_eq.
Qed.

Lemma removeAllListeners_clears_witness :
  let x := VString (str "x") in
  let w := runAll [On x (VFunction 1); On (VString (str "y")) (VFunction 2)]
             (new VUndefined).2 in
  (eventNames (removeAllListeners VUndefined w).2).1 = Normal [].
Proof.
  intros x w.
  apply (removeAllListeners_clears sample (str "x") [] w).
  unfold validName. vm_compute. discriminate.
Defined.

(** X17.  The constructor.  With a non-negative integer or [Infinity], or
    with nothing (undefined), which stands for 10, it returns an emitter that
    has no event and stores that capacity; with anything else it throws
    [TypeError 'Invalid maxListeners'].  It never throws
    [Error 'Memory leak detected']. *)
Theorem new_spec (v : value) :
  (∀ c, acceptable (proposed v) c →
     (new v).1 = Normal tt
     ∧ (eventNames (new v).2).1 = Normal []
     ∧ (get_maxListeners (new v).2).1 = Normal (Some c))
  ∧ ((∀ c, ¬ acceptable (proposed v) c) →
     (new v).1 = Throw (TypeError "Invalid maxListeners"))
  ∧ (new v).1 ≠ Throw (Error "Memory leak detected")
  ∧ (new VUndefined).1 = Normal tt
  ∧ maxListeners_ (this (new VUndefined).2) = Some (Finite 10).
Proof.
  assert (∀ c, acceptable (proposed v) c → new v = (Normal tt, withMax c blank))
    as Hok.
  { intros c Hc. unfold new. by rewrite (set_maxListeners_valid v c). }
  split_and!.
  - intros c Hc. by rewrite (Hok c Hc).
  - intros Hno. unfold new. by rewrite set_maxListeners_invalid.
  - destruct (acceptable_dec (proposed v)) as [[c Hc]|Hno].
    + by rewrite (Hok c Hc).
    + unfold new. by rewrite set_maxListeners_invalid.
  - done.
  - done.
Qed.

(** X18.  [Infinity] is accepted by the setter whatever is registered, and
    with it stored no registration with a function and an accepted name,
    one that is a key of the emitter or is not inherited from the prototype,
    is ever refused. *)
Theorem unbounded_accepts_all
    (w : World) (s : jsstring) (f : nat) (register : value → value → M unit) :
  register ∈ registrations →
  validName s →
  notInherited w (trim s) →
  set_maxListeners (VNumber Infinity) w = (Normal tt, withMax Unbounded w)
  ∧ (register (VString s) (VFunction f)
       (set_maxListeners (VNumber Infinity) w).2).1 = Normal tt.
Proof.
  intros Hreg Hs Hni.
  assert (set_maxListeners (VNumber Infinity) w
          = (Normal tt, withMax Unbounded w)) as ->.
  { rewrite (set_maxListeners_valid _ Unbounded) by constructor.
    destruct (existsb _ _) eqn:E; [|done].
    apply some_exceeds in E as (k & arr & _ & Hfit). by destruct Hfit. }
  split; [done|].
  apply registrations_inv in Hreg as (isPrepend & isOnce & ->).
  by rewrite addEventListener_eval.
Qed.

Lemma unbounded_accepts_all_witness :
  let x := VString (str "x") in
  let w := runAll [On x (VFunction 1)] (new (VNumber (Int 1))).2 in
  set_maxListeners (VNumber Infinity) w = (Normal tt, withMax Unbounded w)
  ∧ (once x (VFunction 2) (set_maxListeners (VNumber Infinity) w).2).1
    = Normal tt.
Proof.
  intros x w.
  apply (unbounded_accepts_all w (str "x") 2 once).
  - repeat constructor.
  - unfold validName. vm_compute. discriminate.
  - right. vm_compute. reflexivity.
Defined.

(** *** Instances *)

Lemma call_keeps_nonEmptyKeys_witness :
  nonEmptyKeys
    (after sample (Once (VString (str "x")) (VFunction 1)) (new VUndefined).2).
Proof.
  apply (call_keeps_nonEmptyKeys sample
           (Once (VString (str "x")) (VFunction 1)) (new VUndefined).2).
  - apply quiet_nestedAll, sample_quiet.
  - intros z H. vm_compute in H. injection H as <-. lia.
  - apply (new_nonEmptyKeys VUndefined). reflexivity.
Defined.


(** *** Which names are accepted *)

Lemma trimStart_nil s :
  trimStart s = [] ↔ ∀ c, c ∈ s → isWhiteSpace c = true.
Proof.
  induction s as [|c s IH]; simpl.
  - split; [|done]. intros _ c Hc. by apply elem_of_nil in Hc.
  - destruct (isWhiteSpace c) eqn:E.
    + rewrite IH. split.
      * intros H c' Hc'. apply elem_of_cons in Hc' as [->|Hc']; [done|].
        by apply H.
      * intros H c' Hc'. apply H. by constructor.
    + split; [done|]. intros H. specialize (H c). rewrite E in H.
      by discriminate H; constructor.
Qed.

Lemma trimStart_keeps s c :
  c ∈ s → isWhiteSpace c = false → c ∈ trimStart s.
Proof.
  induction s as [|c' s IH]; intros Hc Hws; simpl; [done|].
  destruct (isWhiteSpace c') eqn:E; [|done].
  apply elem_of_cons in Hc as [->|Hc]; [congruence|]. by apply IH.
Qed.

Lemma trimStart_elem s c : c ∈ trimStart s → c ∈ s.
Proof.
  destruct (trimStart_suffix s) as [k ->]. intros Hc.
  rewrite <- (take_drop k s). apply elem_of_app. by right.
Qed.

(** X21.  The test [!eventName.trim()] of the methods: a string is accepted
    as an event name exactly when at least one of its code units is not
    white space.  The empty string and strings of white space only are
    refused. *)
Theorem validName_iff (s : jsstring) :
  validName s ↔ ∃ c, c ∈ s ∧ isWhiteSpace c = false.
Proof.
  unfold validName, trim, trimEnd. split.
  - intros Hne.
    destruct (decide (Forall (λ c, isWhiteSpace c = true) s)) as [Hall|Hex].
    + destruct Hne. rewrite Forall_forall in Hall.
      rewrite (proj2 (trimStart_nil s)) by done. done.
    + apply not_Forall_Exists in Hex; [|intros c; apply _].
      apply Exists_exists in Hex as (c & Hc & Hws). exists c.
      split; [done|]. by apply not_true_is_false.
  - intros (c & Hc & Hws) Hnil.
    apply (f_equal reverse) in Hnil. rewrite reverse_involutive in Hnil.
    simpl in Hnil. pose proof (proj1 (trimStart_nil _) Hnil c) as Hall.
    rewrite Hall in Hws; [done|].
    apply elem_of_reverse. by apply trimStart_keeps.
Qed.

(** *** Names inherited from the prototype *)

Lemma listenerCount_inherited s w v :
  validName s → events_ (this w) !! s = None → inherited s = Some v →
  listenerCount (VString s) VUndefined w
    = (Normal (match v with
               | InheritedFunction arity => VNumber (Int arity)
               | InheritedObject => VUndefined
               end), w)
  ∧ ∀ f, listenerCount (VString s) (VFunction f) w
         = (Throw (notAFunction "filter"), w).
Proof.
  intros Hs Hk Hv. unfold listenerCount.
  split; [|intros f];
    rewrite (bind_normal _ _ _ _ _ (checkEventName_valid s w Hs));
    cbv [hasProperty]; unfold_M; simpl;
    eval_property (getProperty_inherited _ _ _ Hk Hv); [|done].
  by destruct v.
Qed.

(** X25.  What the methods do with an accepted name that is no key of the
    emitter but that the event map, a plain object, inherits from the
    prototype ('toString', 'constructor', '__proto__' and the like): the
    test [eventName in this.#events] is true of it.  [emit], [rawListeners],
    [listeners], [removeListener] and [listenerCount] with a function throw
    a [TypeError]; [listenerCount] without a function returns what is read
    as the length of the inherited value; every registration method throws,
    a [TypeError] or [Error 'Memory leak detected']; [removeAllListeners]
    returns.  None of them changes the emitter, and no listener is
    called. *)
Theorem inherited_name_misbehaves
    (behaviour : nat → list value → script)
    (s : jsstring) (v : inheritedValue) (f : nat) (args : list value)
    (w : World) :
  validName s →
  events_ (this w) !! s = None →
  inherited s = Some v →
  emit behaviour (VString s) args w
    = (Throw (TypeError "map is not a function"), w)
  ∧ rawListeners (VString s) w
    = (Throw (TypeError "map is not a function"), w)
  ∧ listeners (VString s) w
    = (Throw (TypeError "filter is not a function"), w)
  ∧ removeListener (VString s) (VFunction f) w
    = (Throw (TypeError "findIndex is not a function"), w)
  ∧ listenerCount (VString s) (VFunction f) w
    = (Throw (TypeError "filter is not a function"), w)
  ∧ listenerCount (VString s) VUndefined w
    = (Normal (match v with
               | InheritedFunction arity => VNumber (Int arity)
               | InheritedObject => VUndefined
               end), w)
  ∧ removeAllListeners (VString s) w = (Normal tt, w)
  ∧ (trim s = s →
     ∀ register, register ∈ registrations →
       ∃ e, register (VString s) (VFunction f) w = (Throw e, w)).
Proof.
  intros Hs Hk Hv.
  destruct (rawListeners_inherited s w v Hs Hk Hv) as [Hraw Hlis].
  destruct (listenerCount_inherited s w v Hs Hk Hv) as [Hcount Hcountf].
  split_and!.
  - by apply (emit_inherited behaviour s args w v).
  - done.
  - done.
  - rewrite removeListener_eval_any by done.
    by rewrite (getProperty_inherited _ _ _ Hk Hv).
  - apply Hcountf.
  - done.
  - unfold removeAllListeners.
    rewrite (bind_normal _ _ _ _ _ (checkEventName_valid s w Hs)).
    cbv [mbind M_bind mret M_ret getEvents setEvents hasProperty].
    rewrite (getProperty_inherited _ _ _ Hk Hv). cbn beta iota.
    by rewrite delete_id, withEvents_id.
  - intros Ht register Hreg.
    apply registrations_inv in Hreg as (isPrepend & isOnce & ->).
    eexists. apply (addEventListener_inherited s f isPrepend isOnce w v);
      by rewrite ?Ht.
Qed.

Lemma inherited_name_misbehaves_witness :
  let w := runAll [On (VString (str "x")) (VFunction 1)] (new VUndefined).2 in
  emit sample (VString (str "toString")) [] w
  = (Throw (TypeError "map is not a function"), w).
Proof.
  intros w.
  apply (inherited_name_misbehaves sample (str "toString")
           (InheritedFunction 0) 1 [] w).
  - unfold validName. vm_compute. discriminate.
  - vm_compute. reflexivity.
  - vm_compute. reflexivity.
Defined.

Lemma plainKeys_subset w w' :
  (∀ k, is_Some (events_ (this w') !! k) → is_Some (events_ (this w) !! k)) →
  plainKeys w → plainKeys w'.
Proof. intros Hsub Hw k Hk. by apply Hw, Hsub. Qed.

Lemma stored_subset s arr evs k :
  is_Some (evs !! s) → is_Some (stored s arr evs !! k) → is_Some (evs !! k).
Proof.
  intros Hs. unfold stored. destruct arr.
  - rewrite lookup_delete_is_Some. by intros [_ ?].
  - rewrite lookup_insert_is_Some. intros [<-|[_ ?]]; done.
Qed.

Lemma removeEventListener_plainKeys eventName index w :
  plainKeys w → plainKeys (removeEventListener eventName index w).2.
Proof.
  intros Hw. destruct (events_ (this w) !! eventName) as [arr|] eqn:Hk.
  - rewrite (removeEventListener_splice _ _ arr) by done.
    apply (plainKeys_subset w); [|done]. intros k. fields.
    apply stored_subset. by eexists.
  - by rewrite removeEventListener_absent.
Qed.

Lemma addEventListener_plainKeys eventName listener isPrepend isOnce w :
  plainKeys w →
  plainKeys (addEventListener eventName listener isPrepend isOnce w).2.
Proof.
  intros Hw.
  destruct (addEventListener_rejects eventName listener isPrepend isOnce w)
    as [(s & f & -> & -> & Hs)| ->]; [|done].
  destruct (notInherited_dec w (trim s)) as [Hni|(Hk & v & Hv)]; cycle 1.
  { by rewrite (addEventListener_inherited s f isPrepend isOnce w v). }
  assert (plainName (trim s)) as Hp.
  { destruct Hni as [Hsome|Hp]; [by apply Hw | done]. }
  rewrite addEventListener_eval by done.
  destruct (exceeds _ _); [case_bool_decide; [done|]|];
    intros k; fields; rewrite lookup_insert_is_Some;
    (intros [<-|[_ Hk]]; [done | by apply Hw]).
Qed.

Lemma removeListener_plainKeys eventName listener w :
  plainKeys w → plainKeys (removeListener eventName listener w).2.
Proof.
  intros Hw.
  destruct (removeListener_rejects eventName listener w)
    as [(s & f & -> & -> & Hs)| ->]; [|done].
  rewrite removeListener_eval_any by done.
  destruct (getProperty (events_ (this w)) s) as [arr|v|]; [|done|done].
  simpl. destruct (-1 <? findIndex (sameListener f) arr); [|done].
  by apply removeEventListener_plainKeys.
Qed.

Lemma removeAllListeners_plainKeys eventName w :
  plainKeys w → plainKeys (removeAllListeners eventName w).2.
Proof.
  intros Hw k.
  destruct (removeAllListeners_events eventName w) as [->|[->|(s & _ & ->)]].
  - apply Hw.
  - rewrite lookup_empty. by intros [? ?].
  - rewrite lookup_delete_is_Some. intros [_ Hk]. by apply Hw.
Qed.

Lemma afterSync_plainKeys c w : plainKeys w → plainKeys (afterSync c w).
Proof.
  intros Hw. destruct c; simpl.
  - apply (plainKeys_subset w); [|done]. intros k.
    by rewrite set_maxListeners_events.
  - done.
  - done.
  - by apply addEventListener_plainKeys.
  - by apply addEventListener_plainKeys.
  - by apply addEventListener_plainKeys.
  - by apply addEventListener_plainKeys.
  - by apply addEventListener_plainKeys.
  - by rewrite listenerCount_frame.
  - by rewrite listeners_frame.
  - by rewrite rawListeners_frame.
  - by apply removeListener_plainKeys.
  - by apply removeListener_plainKeys.
  - by apply removeAllListeners_plainKeys.
Qed.

Lemma emit_plainKeys behaviour eventName args w :
  plainKeys w → plainKeys (emit behaviour eventName args w).2.
Proof.
  intros Hw.
  destruct (string_or_not eventName) as [[s ->]|Hno];
    [|by rewrite emit_not_string].
  apply (preserves_emit behaviour plainKeys s); [| | | |done].
  - by intros f a w'.
  - intros index b arr w' Hw' Hk k. fields. rewrite lookup_insert_is_Some.
    intros [<-|[_ Hk']]; apply Hw'; [by eexists | done].
  - intros f a c _ w'. apply afterSync_plainKeys.
  - intros index w'. apply removeEventListener_plainKeys.
Qed.

(** X26.  In every state an emitter can be in, after it was constructed and
    used through any sequence of calls of its public methods, whatever the
    listeners do, no key of the event map is a name inherited from the
    prototype: under such a name nothing is ever registered, and
    [eventNames] never lists it. *)
Theorem reachable_plainKeys
    (behaviour : nat → list value → script) (w : World) :
  reachable behaviour w →
  plainKeys w
  ∧ ∀ s, s ∈ objectKeys (events_ (this w)) → inherited s = None.
Proof.
  intros Hreach.
  assert (plainKeys w) as Hw.
  { induction Hreach as [v w Hnew|c w Hreach IH].
    - intros k. pose proof (set_maxListeners_events v blank) as Hev.
      unfold new in Hnew. rewrite Hnew in Hev. simpl in Hev. rewrite Hev.
      unfold blank. simpl. rewrite lookup_empty. by intros [? ?].
    - destruct (after_cases behaviour c) as [(e & args & ->)|[c' ->]].
      + by apply emit_plainKeys.
      + by apply afterSync_plainKeys. }
  split; [done|]. intros s Hs. apply Hw. by apply elem_of_objectKeys.
Qed.

Lemma reachable_plainKeys_witness :
  plainKeys
    (after meddling (Emit (VString (str "x")) [])
       (after meddling (On (VString (str "x")) (VFunction 23))
          (new VUndefined).2)).
Proof.
  apply (reachable_plainKeys meddling).
  do 2 apply reachable_call.
  apply (reachable_new meddling VUndefined). reflexivity.
Defined.
